(** * The test-database pool of integresql ([pkg/pool/pool.go])

    A shallow embedding of [DBPool] and its operations, followed by the
    properties of the pool that the specification states.

    Conventions of the embedding.
    - Go's [int] is [Z]; the pool only compares ids and counts slice
      lengths, so no arithmetic can leave the machine range.
    - [map[int]bool] is [gmap Z bool], [map[string]*dbHashPool] is
      [gmap string dbHashPool]; a [nil] pointer read from the map is [None].
      A [*dbHashPool] is only reachable through the map, so mutation through
      the pointer is an update of the map entry.
    - Go leaves the iteration order of [range] over a map unspecified.  Every
      operation that ranges over a map takes the order as an extra argument
      (an oracle), see [range_keys].
    - The mutexes are not modelled: every operation runs under the locks it
      takes, so the operations are the atomic steps of the pool.
    - A call that can panic has the outcome [Panic] beside its returns:
      [make] in [newDBHashPool] panics on a capacity that is negative or too
      large to allocate, and an index out of range panics. *)

From Stdlib Require Import Ascii.
From stdpp Require Import gmap strings list fin_maps relations.

Local Open Scope Z_scope.

(** ** Package [db] *)

Module db.

Module DatabaseConfig.
(** Modelled from the spec: [db.DatabaseConfig] is declared outside the
    two source files; these are the fields that [DefaultManagerConfigFromEnv]
    fills in, and [Database] is the one [AddTestDatabase] overwrites with
    the derived name. *)
Record t : Type := mk {
  Host : string;
  Port : Z;
  Username : string;
  Password : string;
  Database : string
}.

Definition zero : t := mk "" 0 "" "" "".

(** [cfg.Database = name] on a copy of [cfg]. *)
Definition with_Database (cfg : t) (name : string) : t :=
  mk (Host cfg) (Port cfg) (Username cfg) (Password cfg) name.
End DatabaseConfig.

(** Modelled from the spec: [db.Database] and [db.TestDatabase] are declared
    outside the two source files; the fields are those of the composite
    literal in [AddTestDatabase]. *)
Record Database : Type := mkDatabase {
  TemplateHash : string;
  Config : DatabaseConfig.t
}.

Record TestDatabase : Type := mkTestDatabase {
  TestDatabase_Database : Database;
  ID : Z
}.

(** The zero value [db.TestDatabase{}]. *)
Definition zeroTestDatabase : TestDatabase :=
  mkTestDatabase (mkDatabase "" DatabaseConfig.zero) 0.

(** The database name of a slot, [d.Database.Config.Database]. *)
Definition name_of (d : TestDatabase) : string :=
  DatabaseConfig.Database (Config (TestDatabase_Database d)).

End db.

(** ** Package [fmt]: the verb [%03d] *)

Module fmt.

Definition digit (u : N) : ascii :=
  ascii_of_N (48 + u mod 10)%N.

(** The decimal digits of [u], least significant first into the front of
    [acc], the way [fmtInteger] fills its buffer from the end. *)
Fixpoint fmtInteger_digits (fuel : nat) (u : N) (acc : string) : string :=
  match fuel with
  | O => String (digit u) acc
  | S fuel' =>
      if (10 <=? u)%N
      then fmtInteger_digits fuel' (u / 10)%N (String (digit u) acc)
      else String (digit u) acc
  end.

Fixpoint zeros (n : nat) (s : string) : string :=
  match n with
  | O => s
  | S n' => String "0"%char (zeros n' s)
  end.

(** [%03d]: sign, then the digits padded with leading zeros up to the
    width, the sign taking one column of it. *)
Definition fmt_03d (v : Z) : string :=
  let negative := bool_decide (v < 0) in
  let u := Z.abs_N v in
  let prec := if negative then 2%nat else 3%nat in
  let ds := fmtInteger_digits (N.size_nat u) u "" in
  let padded := zeros (prec - String.length ds) ds in
  if negative then String "-"%char padded else padded.

(** [fmt.Sprintf("%s%03d", s, v)]. *)
Definition Sprintf_s_03d (s : string) (v : Z) : string :=
  (s ++ fmt_03d v)%string.

(** Reading a rendering back: the number a string of decimal digits
    stands for, [a] being the value of the digits read so far. *)
Fixpoint decimal_value (s : string) (a : N) : N :=
  match s with
  | EmptyString => a
  | String c s' => decimal_value s' (10 * a + (N_of_ascii c - 48))%N
  end.

(** The spec's width-3 zero-padded decimal of a number below 1000: its
    hundreds, tens and units. *)
Definition three_digits (v : Z) : string :=
  let u := Z.to_N v in
  String (digit (u / 100)) (String (digit (u / 10)) (String (digit u) "")).

End fmt.

(** ** Iteration order of [range] over a map *)

(** The keys of [m] in the order a [range] loop visits them.  Go fixes no
    order, so the order is chosen by [order]: the keys listed there come
    first, in that order, then all remaining keys.  Every [order] yields an
    enumeration of the keys without repetition, and every such enumeration
    is obtained from some [order] (itself). *)
Definition range_keys `{Countable K} {V : Type}
    (order : list K) (m : gmap K V) : list K :=
  let keys := (map_to_list m).*1 in
  filter (λ k, k ∈ keys) (remove_dups order) ++ filter (λ k, k ∉ order) keys.

(** ** Package [pool] *)

Module pool.
Import db.

Inductive error : Type :=
| ErrUnknownHash
| ErrPoolFull
| ErrUnknownID
| ErrNoDBReady
| ErrInvalidIndex
| ErrForeign (msg : string).
(** [ErrForeign]: an error value made elsewhere, returned by a callback. *)

Abbreviation dbIDMap := (gmap Z bool).

Record dbHashPool : Type := mkHashPool {
  dbs : list TestDatabase;
  ready : dbIDMap;
  dirty : dbIDMap
}.

Record DBPool : Type := mkDBPool {
  pools : gmap string dbHashPool;
  maxPoolSize : Z
}.

Definition NewDBPool (maxPoolSize : Z) : DBPool :=
  mkDBPool ∅ maxPoolSize.

(** How a call ends that runs code which can panic: it returns an [error]
    value (possibly [nil]), or it panics and does not return. *)
Inductive exit : Type :=
| Return (err : option error)
| Panic.

(** The hash pool [newDBHashPool] returns: no slots, two empty maps. *)
Definition freshHashPool : dbHashPool :=
  mkHashPool [] ∅ ∅.

(** [make([]db.TestDatabase, 0, maxPoolSize)] panics when the capacity is
    negative and when it is more than the runtime can allocate; [memory]
    says whether the runtime can allocate a capacity that is not negative.
    [None] is the panic. *)
Definition newDBHashPool (memory : bool) (maxPoolSize : Z) : option dbHashPool :=
  if bool_decide (0 ≤ maxPoolSize) && memory then Some freshHashPool else None.

(** [p.pools[hash] = pool] (or the in-place mutation of [*pool]). *)
Definition store (p : DBPool) (hash : string) (pool : dbHashPool) : DBPool :=
  mkDBPool (<[hash := pool]> (pools p)) (maxPoolSize p).

(** [popFirstKey]: the first key the [range] yields, [-1] on an empty map,
    and the map after [delete(idMap, id)]. *)
Definition popFirstKey (order : list Z) (idMap : dbIDMap) : Z * dbIDMap :=
  let id := default (-1) (head (range_keys order idMap)) in
  (id, delete id idMap).

(** Lines 102-114 of [GetDB]: the two bounds checks and the slice read. *)
Definition GetDB_index (p : DBPool) (pool : dbHashPool) (index : Z) (isDirty : bool)
    : TestDatabase * bool * option error :=
  if bool_decide (index < 0) || bool_decide (index >= maxPoolSize p)
  then (zeroTestDatabase, isDirty, Some ErrInvalidIndex)
  else if bool_decide (Z.of_nat (length (dbs pool)) <= index)
  then (zeroTestDatabase, isDirty, Some ErrInvalidIndex)
  else match dbs pool !! Z.to_nat index with
       | Some d => (d, isDirty, None)
       | None => (zeroTestDatabase, isDirty, Some ErrInvalidIndex)
                 (* not taken: [index] is below [len(pool.dbs)] here *)
       end.

Definition GetDB (order : list Z) (p : DBPool) (hash : string)
    : TestDatabase * bool * option error * DBPool :=
  match pools p !! hash with
  | None => (zeroTestDatabase, false, Some ErrUnknownHash, p)
  | Some pool =>
      if bool_decide (0 < size (ready pool))%nat then
        let '(index, ready') := popFirstKey order (ready pool) in
        let pool' := mkHashPool (dbs pool) ready' (dirty pool) in
        (GetDB_index p pool' index false, store p hash pool')
      else if bool_decide (size (dirty pool) = 0%nat) then
        (zeroTestDatabase, false, Some ErrNoDBReady, p)
      else
        let '(index, dirty') := popFirstKey order (dirty pool) in
        let pool' := mkHashPool (dbs pool) (ready pool) dirty' in
        (GetDB_index p pool' index true, store p hash pool')
  end.

(** Lines 149-158 of [AddTestDatabase]: the new slot, its name made of
    the prefix and the id. *)
Definition newTestDB (template : Database) (dbNamePrefix : string) (index : Z)
    : TestDatabase :=
  let dbName := fmt.Sprintf_s_03d dbNamePrefix index in
  mkTestDatabase
    (mkDatabase (TemplateHash template)
       (DatabaseConfig.with_Database (Config template) dbName))
    index.

(** Lines 127-131 of [AddTestDatabase]: the hash pool of [hash], made and
    stored when there is none, and the pool with it; [None] when
    [newDBHashPool] panics. *)
Definition getOrCreate (memory : bool) (p : DBPool) (hash : string)
    : option (dbHashPool * DBPool) :=
  match pools p !! hash with
  | Some pool => Some (pool, p)
  | None =>
      match newDBHashPool memory (maxPoolSize p) with
      | Some pool => Some (pool, store p hash pool)
      | None => None
      end
  end.

(** [initFunc] is called at most once, so only its answer is modelled,
    not what it does outside the pool.  A panic of [newDBHashPool] ends the
    call before anything is stored; the call does not return, and the lock
    of the pool, taken in line 125, is never released. *)
Definition AddTestDatabase (memory : bool) (p : DBPool) (template : Database)
    (dbNamePrefix : string) (initFunc : TestDatabase → option error)
    : TestDatabase * exit * DBPool :=
  let hash := TemplateHash template in
  match getOrCreate memory p hash with
  | None => (zeroTestDatabase, Panic, p)
  | Some (pool, p1) =>
      let index := Z.of_nat (length (dbs pool)) in
      if bool_decide (index >= maxPoolSize p) then
        (zeroTestDatabase, Return (Some ErrPoolFull), p1)
      else
        let newTestDB := newTestDB template dbNamePrefix index in
        match initFunc newTestDB with
        | Some err => (zeroTestDatabase, Return (Some err), p1)
        | None =>
            let pool' :=
              mkHashPool (dbs pool ++ [newTestDB])
                         (<[index := true]> (ready pool)) (dirty pool) in
            (newTestDB, Return None, store p1 hash pool')
        end
  end.

(** [pool.dirty] is never [nil] ([newDBHashPool] makes it), so the test
    [pool.dirty != nil] is true; a key that is not in the map reads as
    [false]. *)
Definition ReturnTestDatabase (p : DBPool) (hash : string) (id : Z)
    : option error * DBPool :=
  if bool_decide (id < 0) || bool_decide (id >= maxPoolSize p) then
    (Some ErrInvalidIndex, p)
  else
    match pools p !! hash with
    | None => (Some ErrUnknownHash, p)
    | Some pool =>
        if bool_decide (0 < size (dirty pool))%nat
           && default false (dirty pool !! id)
        then (Some ErrUnknownID, p)
        else
          (None, store p hash
                   (mkHashPool (dbs pool) (ready pool)
                               (<[id := true]> (dirty pool))))
    end.

Section remove.
(** [removeFunc] drops a database: it acts on the world outside the
    pool, of state [W], and may answer differently from call to call. *)
Context {W : Type} (removeFunc : TestDatabase → W → option error * W).

(** The loop of [removeAllFromPool], [n] being [id + 1]. *)
Fixpoint removeAllFromPool_loop (n : nat) (pool : dbHashPool) (w : W)
    : exit * dbHashPool * W :=
  match n with
  | O => (Return None, pool, w)
  | S id =>
      match dbs pool !! id with
      | None => (Panic, pool, w)
      | Some d =>
          match removeFunc d w with
          | (Some err, w') => (Return (Some err), pool, w')
          | (None, w') =>
              removeAllFromPool_loop id
                (mkHashPool (take (length (dbs pool) - 1) (dbs pool))
                            (delete (Z.of_nat id) (ready pool))
                            (delete (Z.of_nat id) (dirty pool)))
                w'
          end
      end
  end.

Definition removeAllFromPool (pool : dbHashPool) (w : W)
    : exit * dbHashPool * W :=
  removeAllFromPool_loop (length (dbs pool)) pool w.

Definition RemoveAllWithHash (p : DBPool) (hash : string) (w : W)
    : exit * DBPool * W :=
  match pools p !! hash with
  | None => (Return (Some ErrUnknownHash), p, w)
  | Some pool =>
      let '(r, pool', w') := removeAllFromPool pool w in
      (r, store p hash pool', w')
  end.

(** The loop of [RemoveAll] over the hashes the [range] yields. *)
Fixpoint RemoveAll_range (hashes : list string) (p : DBPool) (w : W)
    : exit * DBPool * W :=
  match hashes with
  | [] => (Return None, p, w)
  | hash :: rest =>
      match pools p !! hash with
      | None => RemoveAll_range rest p w
          (* not taken: the [range] yields keys of the map only *)
      | Some pool =>
          let '(r, pool', w') := removeAllFromPool pool w in
          match r with
          | Return None =>
              RemoveAll_range rest
                (mkDBPool (delete hash (pools p)) (maxPoolSize p)) w'
          | _ => (r, store p hash pool', w')
          end
      end
  end.

Definition RemoveAll (order : list string) (p : DBPool) (w : W)
    : exit * DBPool * W :=
  RemoveAll_range (range_keys order (pools p)) p w.
End remove.

(** *** Runs of the pool *)

(** One call of an exported operation that has returned.  [may_return p
    hash id] restricts the calls of [ReturnTestDatabase] that a run may
    contain; the callbacks and the iteration orders are arbitrary.  A call
    of [AddTestDatabase] that panics is no step: it leaves the pool locked
    and no later call returns. *)
Inductive step (may_return : DBPool → string → Z → Prop)
    : DBPool → DBPool → Prop :=
| step_GetDB order p hash :
    step may_return p (GetDB order p hash).2
| step_AddTestDatabase memory p template dbNamePrefix initFunc :
    (AddTestDatabase memory p template dbNamePrefix initFunc).1.2 ≠ Panic →
    step may_return p (AddTestDatabase memory p template dbNamePrefix initFunc).2
| step_ReturnTestDatabase p hash id :
    may_return p hash id →
    step may_return p (ReturnTestDatabase p hash id).2
| step_RemoveAllWithHash (W : Type) removeFunc p hash (w : W) :
    step may_return p (RemoveAllWithHash removeFunc p hash w).1.2
| step_RemoveAll (W : Type) removeFunc order p (w : W) :
    step may_return p (RemoveAll removeFunc order p w).1.2.

(** No restriction: any caller, any id. *)
Definition any_id : DBPool → string → Z → Prop := λ _ _ _, True.

(** The caller returns only what it can hold: an allocated slot that is
    not waiting in [ready]. *)
Definition handed_out (p : DBPool) (hash : string) (id : Z) : Prop :=
  ∀ pool, pools p !! hash = Some pool →
    0 ≤ id < Z.of_nat (length (dbs pool)) ∧ ready pool !! id = None.

(** The states a pool made by [NewDBPool maxSize] can be in. *)
Definition reachable (may_return : DBPool → string → Z → Prop)
    (maxSize : Z) (p : DBPool) : Prop :=
  rtc (step may_return) (NewDBPool maxSize) p.

(** *** Properties of a hash pool *)

Definition in_map (m : dbIDMap) (id : Z) : Prop := is_Some (m !! id).

(** What every run keeps. *)
Record hashpool_ok (maxSize : Z) (pool : dbHashPool) : Prop := {
  ready_allocated : ∀ id, in_map (ready pool) id →
                      0 ≤ id < Z.of_nat (length (dbs pool));
  dirty_below_max : ∀ id, in_map (dirty pool) id → 0 ≤ id < maxSize;
  dbs_below_max : dbs pool = [] ∨ Z.of_nat (length (dbs pool)) ≤ maxSize;
  dbs_ids : ∀ i d, dbs pool !! i = Some d → ID d = Z.of_nat i;
  dbs_names : ∀ i d, dbs pool !! i = Some d →
                ∃ prefix, name_of d = fmt.Sprintf_s_03d prefix (Z.of_nat i);
  dirty_true : ∀ id b, dirty pool !! id = Some b → b = true
}.

Definition pool_ok (p : DBPool) : Prop :=
  ∀ hash pool, pools p !! hash = Some pool → hashpool_ok (maxPoolSize p) pool.

(** What a run keeps when only handed-out ids are returned. *)
Record hashpool_strict (pool : dbHashPool) : Prop := {
  dirty_allocated : ∀ id, in_map (dirty pool) id →
                      0 ≤ id < Z.of_nat (length (dbs pool));
  ready_dirty_disjoint : ∀ id, in_map (ready pool) id →
                           in_map (dirty pool) id → False
}.

Definition pool_strict (p : DBPool) : Prop :=
  ∀ hash pool, pools p !! hash = Some pool → hashpool_strict pool.

(** The four slot states partition the slot space.  The pool stores the
    [ready] and the [dirty] ids only, so the other two sets are whatever
    makes the partition work. *)
Definition slot_partition (pool : dbHashPool) : Prop :=
  ∃ inUse recycling : gset Z,
    dom (ready pool) ## inUse ∧ dom (ready pool) ## dom (dirty pool) ∧
    dom (ready pool) ## recycling ∧ inUse ## dom (dirty pool) ∧
    inUse ## recycling ∧ dom (dirty pool) ## recycling ∧
    ∀ id, id ∈ dom (ready pool) ∪ inUse ∪ dom (dirty pool) ∪ recycling ↔
          0 ≤ id < Z.of_nat (length (dbs pool)).

(** A call of [AddTestDatabase] for [hash] gets a hash pool to work on: it
    finds one, or [newDBHashPool] makes one without a panic. *)
Definition finds_or_makes (memory : bool) (p : DBPool) (hash : string) : Prop :=
  is_Some (pools p !! hash) ∨ (0 ≤ maxPoolSize p ∧ memory = true).

(** The pool a call of [AddTestDatabase] for [hash] works on. *)
Definition pool_of (p : DBPool) (hash : string) : dbHashPool :=
  default freshHashPool (pools p !! hash).

(** *** Observing the calls of a callback *)

(** [removeFunc] with a log of its arguments, oldest call first. *)
Definition logged {W : Type} (removeFunc : TestDatabase → W → option error * W)
    : TestDatabase → list TestDatabase * W → option error * (list TestDatabase * W) :=
  λ d '(log, w), let '(err, w') := removeFunc d w in (err, (log ++ [d], w')).

(** *** The effect of a call on one hash pool *)

(** [pool'] is [pool] cut down to its first [k] slots: the slots from [k]
    on are gone from [dbs], and their ids from both index sets. *)
Definition cut (k : nat) (m m' : dbIDMap) (len : nat) : Prop :=
  ∀ key, m' !! key =
         if bool_decide (Z.of_nat k ≤ key < Z.of_nat len) then None
         else m !! key.

Record truncated (k : nat) (pool pool' : dbHashPool) : Prop := {
  truncated_le : (k ≤ length (dbs pool))%nat;
  truncated_dbs : dbs pool' = take k (dbs pool);
  truncated_ready : cut k (ready pool) (ready pool') (length (dbs pool));
  truncated_dirty : cut k (dirty pool) (dirty pool') (length (dbs pool))
}.

(** The ways one call changes one hash pool.  [strict] says whether the
    run returns handed-out ids only. *)
Inductive hp_step (strict : Prop) (maxSize : Z)
    : dbHashPool → dbHashPool → Prop :=
| hp_pop_ready pool id :
    in_map (ready pool) id →
    hp_step strict maxSize pool
      (mkHashPool (dbs pool) (delete id (ready pool)) (dirty pool))
| hp_pop_dirty pool id :
    in_map (dirty pool) id →
    hp_step strict maxSize pool
      (mkHashPool (dbs pool) (ready pool) (delete id (dirty pool)))
| hp_add pool d prefix :
    Z.of_nat (length (dbs pool)) < maxSize →
    ID d = Z.of_nat (length (dbs pool)) →
    name_of d = fmt.Sprintf_s_03d prefix (Z.of_nat (length (dbs pool))) →
    hp_step strict maxSize pool
      (mkHashPool (dbs pool ++ [d])
                  (<[Z.of_nat (length (dbs pool)) := true]> (ready pool))
                  (dirty pool))
| hp_return pool id :
    0 ≤ id < maxSize →
    (strict → 0 ≤ id < Z.of_nat (length (dbs pool)) ∧ ready pool !! id = None) →
    hp_step strict maxSize pool
      (mkHashPool (dbs pool) (ready pool) (<[id := true]> (dirty pool)))
| hp_truncate pool pool' k :
    truncated k pool pool' →
    hp_step strict maxSize pool pool'.

(** What one call may do to a pool: the size limit stays, and every hash
    pool found afterwards is the one from before (a fresh one for a new
    hash), changed by at most one [hp_step]. *)
Definition effect (strict : Prop) (p p' : DBPool) : Prop :=
  maxPoolSize p' = maxPoolSize p ∧
  ∀ hash pool', pools p' !! hash = Some pool' →
    pool' = pool_of p hash ∨
    hp_step strict (maxPoolSize p) (pool_of p hash) pool'.

(** The slot with id [i] of the hash pool of [hash], [p.pools[hash].dbs[i]]. *)
Definition slot_at (p : DBPool) (hash : string) (i : nat) : option TestDatabase :=
  pool ← pools p !! hash; dbs pool !! i.

(** A run during which the slot [i] of [hash] is never removed. *)
Definition slot_lives (may_return : DBPool → string → Z → Prop)
    (hash : string) (i : nat) : DBPool → DBPool → Prop :=
  rtc (λ p p', step may_return p p' ∧ is_Some (slot_at p' hash i)).

(** The slots a drain of the hash pool of [hash] passes to [removeFunc]
    when every call succeeds. *)
Definition calls_of (p : DBPool) (hash : string) : list TestDatabase :=
  reverse (dbs (pool_of p hash)).


(** *** A slot in the hands of a caller *)

(** No id of the hash pool of [hash] is in [ready] and in [dirty] at
    once. *)
Definition sets_disjoint (p : DBPool) (hash : string) : Prop :=
  ∀ pool id, pools p !! hash = Some pool →
             in_map (ready pool) id → in_map (dirty pool) id → False.

(** The slot [id] of [hash] is allocated and in neither index set: no
    [GetDB] can pick it. *)
Definition taken (p : DBPool) (hash : string) (id : Z) : Prop :=
  ∃ pool, pools p !! hash = Some pool ∧
          0 ≤ id < Z.of_nat (length (dbs pool)) ∧
          ready pool !! id = None ∧ dirty pool !! id = None.

(** The calls made while a caller keeps the slot [id] of [hash]: any
    [GetDB], any [AddTestDatabase], and [ReturnTestDatabase] for any other
    slot. *)
Inductive keep_step (hash : string) (id : Z) : DBPool → DBPool → Prop :=
| keep_GetDB order p h :
    keep_step hash id p (GetDB order p h).2
| keep_AddTestDatabase memory p template dbNamePrefix initFunc :
    (AddTestDatabase memory p template dbNamePrefix initFunc).1.2 ≠ Panic →
    keep_step hash id p (AddTestDatabase memory p template dbNamePrefix initFunc).2
| keep_ReturnTestDatabase p h i :
    (h, i) ≠ (hash, id) →
    keep_step hash id p (ReturnTestDatabase p h i).2.

End pool.

Import db pool.

(** ** Sample runs *)

Module sample.
Definition template : Database :=
  mkDatabase "abc" (DatabaseConfig.mk "127.0.0.1" 5432 "postgres" "" "postgres").

Definition init_ok : TestDatabase → option error := λ _, None.
Definition init_fail : TestDatabase → option error :=
  λ _, Some (ErrForeign "create failed").

Definition remove_ok : TestDatabase → unit → option error * unit :=
  λ _ w, (None, w).


(** A pool of at most 2 with one slot, waiting in [ready]. *)
Definition one_ready : DBPool :=
  (AddTestDatabase true (NewDBPool 2) template "test_abc_" init_ok).2.

(** The slot handed out. *)
Definition one_in_use : DBPool := (GetDB [] one_ready "abc").2.

(** The slot handed out and returned. *)
Definition one_dirty : DBPool := (ReturnTestDatabase one_in_use "abc" 0).2.

(** The slot returned although nobody took it. *)
Definition one_ready_and_dirty : DBPool :=
  (ReturnTestDatabase one_ready "abc" 0).2.

(** Three slots under one hash. *)
Definition three_ready : DBPool :=
  let p1 := (AddTestDatabase true (NewDBPool 5) template "test_abc_" init_ok).2 in
  let p2 := (AddTestDatabase true p1 template "test_abc_" init_ok).2 in
  (AddTestDatabase true p2 template "test_abc_" init_ok).2.
(** Two hashes, ["abc"] with three slots and ["xyz"] with one. *)
Definition two_hashes : DBPool :=
  (AddTestDatabase true three_ready (mkDatabase "xyz" (Config template))
     "test_xyz_" init_ok).2.

(** A callback that cannot drop slot 1. *)
Definition remove_but_1 : TestDatabase → unit → option error * unit :=
  λ d w, (if bool_decide (ID d = 1) then Some (ErrForeign "database in use")
          else None, w).
End sample.

(** * Facts about the iteration order *)

Section range_keys_facts.
Context `{Countable K} {V : Type}.
Implicit Types (m : gmap K V) (order : list K) (k : K).

Lemma elem_of_map_keys m k : k ∈ (map_to_list m).*1 ↔ is_Some (m !! k).
Proof.
  rewrite list_elem_of_fmap. split.
  - intros [[k' v] [-> Hin]]. apply elem_of_map_to_list in Hin. by exists v.
  - intros [v Hv]. exists (k, v). split; [done|]. by apply elem_of_map_to_list.
Qed.

Lemma elem_of_range_keys order m k :
  k ∈ range_keys order m ↔ is_Some (m !! k).
Proof.
  unfold range_keys.
  rewrite elem_of_app, !list_elem_of_filter, elem_of_remove_dups.
  rewrite <- elem_of_map_keys.
  destruct (decide (k ∈ order)); tauto.
Qed.

Lemma NoDup_range_keys order m : NoDup (range_keys order m).
Proof.
  unfold range_keys. apply NoDup_app. split_and!.
  - apply NoDup_filter, NoDup_remove_dups.
  - intros k. rewrite !list_elem_of_filter, elem_of_remove_dups. tauto.
  - apply NoDup_filter, NoDup_fst_map_to_list.
Qed.

Lemma range_keys_nil order m : range_keys order m = [] ↔ m = ∅.
Proof.
  split.
  - intros Hnil. apply map_eq. intros k. rewrite lookup_empty.
    apply eq_None_not_Some. rewrite <- (elem_of_range_keys order), Hnil.
    apply not_elem_of_nil.
  - intros ->. apply elem_of_nil_inv. intros k.
    rewrite elem_of_range_keys, lookup_empty. by intros [? ?].
Qed.

Lemma remove_dups_NoDup (l : list K) : NoDup l → remove_dups l = l.
Proof.
  induction 1 as [|x l Hx Hl IH]; simpl; [done|].
  case_decide; [done|]. by rewrite IH.
Qed.

Lemma filter_all (P : K → Prop) `{!∀ x, Decision (P x)} (l : list K) :
  (∀ x, x ∈ l → P x) → filter P l = l.
Proof.
  induction l as [|x l IH]; intros HP; [done|].
  rewrite filter_cons_True by (apply HP; left).
  f_equal. apply IH. intros y Hy. apply HP. by right.
Qed.

Lemma filter_none (P : K → Prop) `{!∀ x, Decision (P x)} (l : list K) :
  (∀ x, x ∈ l → ¬ P x) → filter P l = [].
Proof.
  induction l as [|x l IH]; intros HP; [done|].
  rewrite filter_cons_False by (apply HP; left).
  apply IH. intros y Hy. apply HP. by right.
Qed.

(** Any enumeration of the keys is the order of some run of the loop:
    the oracle leaves out no behaviour of [range]. *)
Lemma range_keys_realised order m :
  NoDup order → (∀ k, k ∈ order ↔ is_Some (m !! k)) →
  range_keys order m = order.
Proof.
  intros Hnd Hkeys. unfold range_keys.
  rewrite remove_dups_NoDup by done.
  rewrite filter_all, filter_none.
  - apply app_nil_r.
  - intros k Hk Hnot. apply Hnot, Hkeys. by apply elem_of_map_keys.
  - intros k Hk. apply elem_of_map_keys. by apply Hkeys.
Qed.

(** Any key of the map can be the first one. *)
Lemma range_keys_first m k :
  is_Some (m !! k) → head (range_keys [k] m) = Some k.
Proof.
  intros Hk. unfold range_keys. simpl.
  rewrite filter_cons_True by by apply elem_of_map_keys. done.
Qed.
End range_keys_facts.

(** * Facts about the index sets *)

Lemma in_map_delete (m : dbIDMap) id key :
  in_map (delete id m) key → in_map m key ∧ key ≠ id.
Proof.
  unfold in_map. rewrite lookup_delete. case_decide; [|by intros; split; [|congruence]].
  by intros [? ?].
Qed.

Lemma in_map_insert (m : dbIDMap) id b key :
  in_map (<[id := b]> m) key ↔ key = id ∨ in_map m key.
Proof.
  unfold in_map. rewrite lookup_insert. case_decide; subst.
  - split; [by left|by eexists].
  - split; [by right|]. by intros [?|?].
Qed.

Lemma in_map_cut k len (m m' : dbIDMap) key :
  cut k m m' len → in_map m' key →
  in_map m key ∧ ¬ (Z.of_nat k ≤ key < Z.of_nat len).
Proof.
  intros Hcut. unfold in_map. rewrite (Hcut key).
  case_bool_decide; [by intros [? ?]|done].
Qed.

Lemma popFirstKey_nonempty order (m : dbIDMap) :
  (0 < size m)%nat →
  ∃ id, in_map m id ∧ popFirstKey order m = (id, delete id m).
Proof.
  intros Hsize. unfold popFirstKey.
  destruct (range_keys order m) as [|id l] eqn:Hkeys.
  - apply range_keys_nil in Hkeys. subst m. rewrite map_size_empty in Hsize. lia.
  - exists id. split; [|done].
    apply (elem_of_range_keys order). rewrite Hkeys. left.
Qed.

(** Which id [popFirstKey] takes is up to the iteration order alone. *)
Lemma popFirstKey_any (m : dbIDMap) id :
  in_map m id → popFirstKey [id] m = (id, delete id m).
Proof.
  intros Hid. unfold popFirstKey. by rewrite range_keys_first.
Qed.

Lemma size_pos_in_map (m : dbIDMap) id : in_map m id → (0 < size m)%nat.
Proof.
  intros [b Hb]. destruct (decide (size m = 0%nat)) as [Hz|]; [|lia].
  apply map_size_empty_iff in Hz. subst. by rewrite lookup_empty in Hb.
Qed.

(** * What one call keeps of a hash pool *)

Lemma freshHashPool_ok maxSize : hashpool_ok maxSize freshHashPool.
Proof.
  split; simpl; try (intros id [b Hb]; by rewrite lookup_empty in Hb).
  - by left.
  - intros i d Hd. by rewrite lookup_nil in Hd.
  - intros i d Hd. by rewrite lookup_nil in Hd.
  - intros id b Hb. by rewrite lookup_empty in Hb.
Qed.

Lemma freshHashPool_strict : hashpool_strict freshHashPool.
Proof.
  split; simpl; intros id [b Hb]; by rewrite lookup_empty in Hb.
Qed.

Lemma hp_step_ok strict maxSize pool pool' :
  hp_step strict maxSize pool pool' →
  hashpool_ok maxSize pool → hashpool_ok maxSize pool'.
Proof.
  intros Hstep [Hready Hdirty Hmax Hids Hnames Htrue].
  destruct Hstep as [pool id Hid|pool id Hid|pool d prefix Hlt HID Hname
                    |pool id Hrange _|pool pool' k [Hk Hdbs Hcr Hcd]].
  - split; simpl; try done.
    intros key Hkey. apply in_map_delete in Hkey as [Hkey _]. by apply Hready.
  - split; simpl; try done.
    + intros key Hkey. apply in_map_delete in Hkey as [Hkey _]. by apply Hdirty.
    + intros key b. rewrite lookup_delete. case_decide; [done|]. apply Htrue.
  - split; simpl; try done.
    + intros key. rewrite in_map_insert, length_app. simpl.
      intros [->|Hkey]; [lia|]. apply Hready in Hkey. lia.
    + right. rewrite length_app. simpl. lia.
    + intros i x. rewrite lookup_app_Some. intros [Hx|[Hge Hx]]; [by apply Hids|].
      apply list_lookup_singleton_Some in Hx as [Hi <-]. rewrite HID. lia.
    + intros i x. rewrite lookup_app_Some. intros [Hx|[Hge Hx]]; [by apply Hnames|].
      apply list_lookup_singleton_Some in Hx as [Hi <-]. exists prefix.
      rewrite Hname. f_equal. lia.
  - split; simpl; try done.
    + intros key. rewrite in_map_insert. intros [->|Hkey]; [done|by apply Hdirty].
    + intros key b. rewrite lookup_insert. case_decide; [congruence|apply Htrue].
  - assert (length (dbs pool') = k) as Hlen.
    { rewrite Hdbs, length_take. lia. }
    split.
    + intros key Hkey. apply (in_map_cut _ _ _ _ _ Hcr) in Hkey as [Hkey Hout].
      apply Hready in Hkey. lia.
    + intros key Hkey. apply (in_map_cut _ _ _ _ _ Hcd) in Hkey as [Hkey _].
      by apply Hdirty.
    + destruct Hmax as [Hnil|Hmax]; [left|right; lia].
      rewrite Hdbs, Hnil. by destruct k.
    + intros i d. rewrite Hdbs, lookup_take_Some. intros [Hd _]. by apply Hids.
    + intros i d. rewrite Hdbs, lookup_take_Some. intros [Hd _]. by apply Hnames.
    + intros key b. rewrite (Hcd key). case_bool_decide; [done|apply Htrue].
Qed.

Lemma hp_step_strict maxSize pool pool' :
  hp_step True maxSize pool pool' →
  hashpool_ok maxSize pool → hashpool_strict pool → hashpool_strict pool'.
Proof.
  intros Hstep [Hready _ _ _ _ _] [Hdirty Hdisj].
  destruct Hstep as [pool id Hid|pool id Hid|pool d prefix Hlt HID Hname
                    |pool id Hrange Hout|pool pool' k [Hk Hdbs Hcr Hcd]].
  - split; simpl; [done|].
    intros key Hkey. apply in_map_delete in Hkey as [Hkey _]. by apply Hdisj.
  - split; simpl.
    + intros key Hkey. apply in_map_delete in Hkey as [Hkey _]. by apply Hdirty.
    + intros key Hr Hkey. apply in_map_delete in Hkey as [Hkey _].
      by apply (Hdisj key).
  - split; simpl.
    + intros key Hkey. apply Hdirty in Hkey. rewrite length_app. simpl. lia.
    + intros key. rewrite in_map_insert. intros [->|Hkey] Hd.
      * apply Hdirty in Hd. lia.
      * by apply (Hdisj key).
  - destruct (Hout I) as [Hin Hnone]. split; simpl.
    + intros key. rewrite in_map_insert. intros [->|Hkey]; [done|by apply Hdirty].
    + intros key Hr. rewrite in_map_insert. intros [->|Hkey].
      * destruct Hr as [b Hb]. congruence.
      * by apply (Hdisj key).
  - assert (length (dbs pool') = k) as Hlen.
    { rewrite Hdbs, length_take. lia. }
    split.
    + intros key Hkey. apply (in_map_cut _ _ _ _ _ Hcd) in Hkey as [Hkey Hout].
      apply Hdirty in Hkey. lia.
    + intros key Hr Hd.
      apply (in_map_cut _ _ _ _ _ Hcr) in Hr as [Hr _].
      apply (in_map_cut _ _ _ _ _ Hcd) in Hd as [Hd _].
      by apply (Hdisj key).
Qed.

(** A call never rewrites a slot that stays in the pool. *)
Lemma hp_step_slot strict maxSize pool pool' i d d' :
  hp_step strict maxSize pool pool' →
  dbs pool !! i = Some d → dbs pool' !! i = Some d' → d = d'.
Proof.
  intros Hstep Hd.
  destruct Hstep as [pool id Hid|pool id Hid|pool x prefix Hlt HID Hname
                    |pool id Hrange _|pool pool' k [Hk Hdbs Hcr Hcd]]; simpl.
  - congruence.
  - congruence.
  - rewrite lookup_app_l by by eapply lookup_lt_Some. congruence.
  - congruence.
  - rewrite Hdbs, lookup_take_Some. intros [Hd' _]. congruence.
Qed.

(** * The loop of [removeAllFromPool] *)

Lemma cut_all (m : dbIDMap) len : cut len m m len.
Proof. intros key. case_bool_decide; [lia|done]. Qed.

Lemma truncated_all pool : truncated (length (dbs pool)) pool pool.
Proof.
  split; [done| |apply cut_all|apply cut_all].
  by rewrite take_ge.
Qed.

Lemma cut_delete k id (m m' : dbIDMap) :
  (k ≤ id)%nat →
  cut k (delete (Z.of_nat id) m) m' id → cut k m m' (S id).
Proof.
  intros Hk Hcut key. rewrite (Hcut key), lookup_delete.
  repeat case_bool_decide; try case_decide; try done; lia.
Qed.

Section remove_facts.
Context {W : Type} (removeFunc : TestDatabase → W → option error * W).

(** The loop ends without a panic; it leaves the pool cut down to [k]
    slots, [k = 0] when every call succeeded, and otherwise slot [k - 1]
    is the one whose removal failed. *)
Lemma removeAllFromPool_loop_spec n pool w :
  n = length (dbs pool) →
  ∃ k r pool' w',
    removeAllFromPool_loop removeFunc n pool w = (r, pool', w') ∧
    truncated k pool pool' ∧
    ((r = Return None ∧ k = 0%nat) ∨
     (∃ e k0 d w0, r = Return (Some e) ∧ k = S k0 ∧
                   dbs pool !! k0 = Some d ∧ removeFunc d w0 = (Some e, w'))).
Proof.
  revert pool w. induction n as [|id IH]; intros pool w Hn.
  - exists 0%nat, (Return None), pool, w. split; [done|]. split; [|by left].
    rewrite Hn. apply truncated_all.
  - simpl.
    destruct (lookup_lt_is_Some_2 (dbs pool) id) as [d Hd]; [lia|].
    rewrite Hd. destruct (removeFunc d w) as [[e|] w1] eqn:Hcall.
    + exists (S id), (Return (Some e)), pool, w1. split; [done|]. split.
      * rewrite Hn. apply truncated_all.
      * right. by exists e, id, d, w.
    + set (pool1 := mkHashPool _ _ _).
      assert (length (dbs pool1) = id) as Hlen1.
      { simpl. rewrite length_take. lia. }
      destruct (IH pool1 w1 (eq_sym Hlen1))
        as (k & r & pool' & w' & Hrun & [Hk Hdbs Hcr Hcd] & Hexit).
      exists k, r, pool', w'. split; [done|]. split.
      * rewrite Hlen1 in Hk, Hcr, Hcd. split.
        -- lia.
        -- rewrite Hdbs. simpl. rewrite take_take. f_equal. lia.
        -- rewrite <- Hn. by apply cut_delete.
        -- rewrite <- Hn. by apply cut_delete.
      * destruct Hexit as [?|(e & k0 & x & w0 & -> & -> & Hx & Hfail)]; [by left|].
        right. exists e, k0, x, w0. split_and!; try done.
        simpl in Hx. apply lookup_take_Some in Hx as [Hx _]. done.
Qed.

Lemma removeAllFromPool_spec pool w :
  ∃ k r pool' w',
    removeAllFromPool removeFunc pool w = (r, pool', w') ∧
    truncated k pool pool' ∧
    ((r = Return None ∧ k = 0%nat) ∨
     (∃ e k0 d w0, r = Return (Some e) ∧ k = S k0 ∧
                   dbs pool !! k0 = Some d ∧ removeFunc d w0 = (Some e, w'))).
Proof. by apply removeAllFromPool_loop_spec. Qed.

Lemma drop_last_slot (l : list TestDatabase) id d :
  length l = S id → l !! id = Some d → drop id l = [d] ∧ l = take id l ++ [d].
Proof.
  intros Hlen Hd.
  assert (drop id l = [d]) as Hdrop.
  { rewrite (drop_S _ _ _ Hd), drop_ge by lia. done. }
  split; [done|]. by rewrite <- Hdrop, take_drop.
Qed.

(** The calls of the loop, as the log of [logged removeFunc] has them:
    every slot from the last one down to the first on success, and down to
    the slot whose removal failed otherwise.  Logging does not change the
    run. *)
Lemma removeAllFromPool_loop_log n pool log w r pool' log' w' :
  n = length (dbs pool) →
  removeAllFromPool_loop (logged removeFunc) n pool (log, w)
    = (r, pool', (log', w')) →
  removeAllFromPool_loop removeFunc n pool w = (r, pool', w') ∧
  (length (dbs pool') ≤ n)%nat ∧
  (r = Return None → log' = log ++ reverse (dbs pool)) ∧
  (∀ e, r = Return (Some e) →
        log' = log ++ reverse (drop (length (dbs pool') - 1) (dbs pool))).
Proof.
  revert pool log w. induction n as [|id IH]; intros pool log w Hn Hrun.
  - simpl in *. simplify_eq. destruct (dbs pool'); [|done].
    rewrite app_nil_r. by split_and!.
  - simpl in *.
    destruct (lookup_lt_is_Some_2 (dbs pool) id) as [d Hd]; [lia|].
    rewrite Hd in Hrun |- *.
    destruct (drop_last_slot (dbs pool) id d) as [Hdrop Hsnoc]; [done..|].
    destruct (removeFunc d w) as [[e|] w1] eqn:Hcall; simpl in Hrun.
    + simplify_eq. split_and!; [done|lia|done|].
      intros e' _. rewrite <- Hn. simpl. rewrite Nat.sub_0_r, Hdrop. done.
    + set (pool1 := mkHashPool _ _ _) in *.
      assert (length (dbs pool1) = id) as Hlen1.
      { simpl. rewrite length_take. lia. }
      assert (dbs pool1 = take id (dbs pool)) as Hdbs1.
      { simpl. f_equal. lia. }
      destruct (IH pool1 (log ++ [d]) w1 (eq_sym Hlen1) Hrun)
        as (Hsim & Hle & Hok & Hfail).
      split_and!; [done|lia| |].
      * intros Hr. rewrite (Hok Hr), Hdbs1, <- app_assoc.
        f_equal. rewrite Hsnoc at 2. by rewrite reverse_snoc.
      * intros e Hr. rewrite (Hfail e Hr), Hdbs1, <- app_assoc.
        f_equal. rewrite Hsnoc at 2.
        rewrite drop_app_le by (rewrite length_take; lia).
        by rewrite reverse_snoc.
Qed.
End remove_facts.

(** * The effect of each operation *)

Lemma pool_of_Some p hash pool : pools p !! hash = Some pool → pool_of p hash = pool.
Proof. intros Hp. unfold pool_of. by rewrite Hp. Qed.

Lemma pool_of_None p hash :
  pools p !! hash = None → pool_of p hash = freshHashPool.
Proof. intros Hp. unfold pool_of. by rewrite Hp. Qed.

Lemma effect_refl strict p : effect strict p p.
Proof.
  split; [done|]. intros hash pool' Hp. left. by rewrite (pool_of_Some _ _ _ Hp).
Qed.

Lemma effect_store strict p hash pool' :
  pool' = pool_of p hash ∨ hp_step strict (maxPoolSize p) (pool_of p hash) pool' →
  effect strict p (store p hash pool').
Proof.
  intros Hpool. split; [done|]. intros h x. simpl. rewrite lookup_insert.
  case_decide; subst.
  - intros [= <-]. done.
  - intros Hx. left. by rewrite (pool_of_Some _ _ _ Hx).
Qed.

Lemma GetDB_effect strict order p hash : effect strict p (GetDB order p hash).2.
Proof.
  unfold GetDB. destruct (pools p !! hash) as [pool|] eqn:Hp; [|apply effect_refl].
  case_bool_decide as Hready.
  - destruct (popFirstKey_nonempty order (ready pool) Hready) as (id & Hid & ->).
    simpl. apply effect_store. right. rewrite (pool_of_Some _ _ _ Hp).
    by constructor.
  - case_bool_decide as Hdirty; [apply effect_refl|].
    destruct (popFirstKey_nonempty order (dirty pool)) as (id & Hid & ->); [lia|].
    simpl. apply effect_store. right. rewrite (pool_of_Some _ _ _ Hp).
    by constructor.
Qed.

Lemma store_store p hash pool1 pool2 :
  store (store p hash pool1) hash pool2 = store p hash pool2.
Proof. unfold store. simpl. by rewrite insert_insert_eq. Qed.

Lemma store_pool_of p hash pool :
  pools p !! hash = Some pool → store p hash pool = p.
Proof. intros Hp. destruct p as [m maxSize]. unfold store. simpl in *. by rewrite insert_id. Qed.

Lemma finds_or_makes_dec memory p hash :
  {finds_or_makes memory p hash} + {¬ finds_or_makes memory p hash}.
Proof.
  unfold finds_or_makes. destruct (pools p !! hash) as [pool|].
  - left. left. by eexists.
  - destruct (decide (0 ≤ maxPoolSize p)) as [Hmax|Hmax], memory;
      [by left; right|right..]; by intros [[? [=]]|[? ?]].
Qed.

Lemma getOrCreate_Some memory p hash :
  finds_or_makes memory p hash →
  getOrCreate memory p hash
    = Some (pool_of p hash, store p hash (pool_of p hash)).
Proof.
  intros Hwork. unfold getOrCreate.
  destruct (pools p !! hash) as [pool|] eqn:Hp.
  - by rewrite (pool_of_Some _ _ _ Hp), (store_pool_of _ _ _ Hp).
  - destruct Hwork as [[x Hx]|[Hmax ->]]; [congruence|].
    rewrite (pool_of_None _ _ Hp). unfold newDBHashPool.
    by rewrite bool_decide_eq_true_2.
Qed.

Lemma getOrCreate_None memory p hash :
  ¬ finds_or_makes memory p hash → getOrCreate memory p hash = None.
Proof.
  intros Hnot. unfold getOrCreate.
  destruct (pools p !! hash) as [pool|] eqn:Hp.
  - destruct Hnot. left. by eexists.
  - unfold newDBHashPool. case_bool_decide as Hmax; [|done].
    destruct memory; [|done]. destruct Hnot. by right.
Qed.

(** Without a hash pool and with a size limit below 0, or without memory
    for the slice, [AddTestDatabase] panics in [make] and stores nothing. *)
Lemma AddTestDatabase_panics memory p template dbNamePrefix initFunc :
  ¬ finds_or_makes memory p (TemplateHash template) →
  AddTestDatabase memory p template dbNamePrefix initFunc
    = (zeroTestDatabase, Panic, p).
Proof. intros Hnot. unfold AddTestDatabase. by rewrite getOrCreate_None. Qed.

(** [AddTestDatabase] first makes sure the hash pool exists, then works on
    it: the pool it works on is [pool_of p hash] in both cases. *)
Lemma AddTestDatabase_unfold memory p template dbNamePrefix initFunc :
  let hash := TemplateHash template in
  let pool := pool_of p hash in
  let index := Z.of_nat (length (dbs pool)) in
  let newTestDB := newTestDB template dbNamePrefix index in
  finds_or_makes memory p hash →
  AddTestDatabase memory p template dbNamePrefix initFunc =
    if bool_decide (index >= maxPoolSize p) then
      (zeroTestDatabase, Return (Some ErrPoolFull), store p hash pool)
    else match initFunc newTestDB with
         | Some err => (zeroTestDatabase, Return (Some err), store p hash pool)
         | None =>
             (newTestDB, Return None,
              store p hash
                (mkHashPool (dbs pool ++ [newTestDB])
                            (<[index := true]> (ready pool)) (dirty pool)))
         end.
Proof.
  intros hash pool index newTestDB Hwork. unfold AddTestDatabase.
  fold hash. rewrite (getOrCreate_Some _ _ _ Hwork).
  fold pool index newTestDB.
  case_bool_decide; [done|]. destruct (initFunc _); [done|].
  by rewrite store_store.
Qed.

(** A call that did not panic had a hash pool to work on. *)
Lemma AddTestDatabase_returned memory p template dbNamePrefix initFunc :
  (AddTestDatabase memory p template dbNamePrefix initFunc).1.2 ≠ Panic →
  finds_or_makes memory p (TemplateHash template).
Proof.
  intros Hret. destruct (finds_or_makes_dec memory p (TemplateHash template))
    as [Hwork|Hnot]; [done|].
  by rewrite AddTestDatabase_panics in Hret.
Qed.

Lemma AddTestDatabase_effect strict memory p template dbNamePrefix initFunc :
  effect strict p (AddTestDatabase memory p template dbNamePrefix initFunc).2.
Proof.
  destruct (finds_or_makes_dec memory p (TemplateHash template)) as [Hwork|Hnot].
  - rewrite AddTestDatabase_unfold by done. simpl.
    case_bool_decide as Hfull.
    + apply effect_store. by left.
    + destruct (initFunc _); simpl; apply effect_store; [by left|].
      right. eapply hp_add; [lia|done|done].
  - rewrite AddTestDatabase_panics by done. apply effect_refl.
Qed.

Lemma ReturnTestDatabase_effect (strict : Prop) p hash id :
  (strict → handed_out p hash id) →
  effect strict p (ReturnTestDatabase p hash id).2.
Proof.
  intros Hout. unfold ReturnTestDatabase.
  destruct (bool_decide (id < 0) || bool_decide (id >= maxPoolSize p)) eqn:Hrange;
    [apply effect_refl|].
  apply orb_false_iff in Hrange as [H1%bool_decide_eq_false H2%bool_decide_eq_false].
  destruct (pools p !! hash) as [pool|] eqn:Hp; [|apply effect_refl].
  destruct (_ && _); [apply effect_refl|].
  simpl. apply effect_store. right. rewrite (pool_of_Some _ _ _ Hp).
  constructor; [lia|]. intros Hs. by apply (Hout Hs).
Qed.

Section remove_effect.
Context {W : Type} (removeFunc : TestDatabase → W → option error * W).

Lemma RemoveAllWithHash_effect strict p hash w :
  effect strict p (RemoveAllWithHash removeFunc p hash w).1.2.
Proof.
  unfold RemoveAllWithHash.
  destruct (pools p !! hash) as [pool|] eqn:Hp; [|apply effect_refl].
  destruct (removeAllFromPool_spec removeFunc pool w)
    as (k & r & pool' & w' & -> & Htr & _).
  simpl. apply effect_store. right. rewrite (pool_of_Some _ _ _ Hp).
  by eapply hp_truncate.
Qed.

(** [RemoveAll] makes no hash pool: what is left afterwards was there
    before, cut down at most. *)
Lemma RemoveAll_range_effect strict hashes p w hash pool' :
  pools (RemoveAll_range removeFunc hashes p w).1.2 !! hash = Some pool' →
  maxPoolSize (RemoveAll_range removeFunc hashes p w).1.2 = maxPoolSize p ∧
  ∃ pool, pools p !! hash = Some pool ∧
          (pool' = pool ∨ hp_step strict (maxPoolSize p) pool pool').
Proof.
  revert p w. induction hashes as [|h rest IH]; intros p w; simpl.
  - intros Hp. split; [done|]. exists pool'. split; [done|by left].
  - destruct (pools p !! h) as [pool|] eqn:Hh; [|apply IH].
    destruct (removeAllFromPool_spec removeFunc pool w)
      as (k & r & pool1 & w' & -> & Htr & Hexit).
    destruct Hexit as [[-> ->]|(e & k0 & d & w0 & -> & _)].
    + intros Hp. apply IH in Hp as (Hmax & x & Hx & Hstep). simpl in *.
      split; [done|]. exists x. split; [|done].
      by apply lookup_delete_Some in Hx as [_ Hx].
    + simpl. rewrite lookup_insert. case_decide; subst.
      * intros [= <-]. split; [done|]. exists pool. split; [done|].
        right. by eapply hp_truncate.
      * intros Hp. split; [done|]. exists pool'. split; [done|by left].
Qed.

Lemma RemoveAll_max hashes p w :
  maxPoolSize (RemoveAll_range removeFunc hashes p w).1.2 = maxPoolSize p.
Proof.
  revert p w. induction hashes as [|h rest IH]; intros p w; simpl; [done|].
  destruct (pools p !! h) as [pool|] eqn:Hh; [|apply IH].
  destruct (removeAllFromPool removeFunc pool w) as [[r pool1] w'].
  destruct r as [[e|]|]; try done. by rewrite IH.
Qed.

Lemma RemoveAll_effect strict order p w :
  effect strict p (RemoveAll removeFunc order p w).1.2.
Proof.
  unfold RemoveAll. split; [apply RemoveAll_max|].
  intros hash pool' Hp.
  apply (RemoveAll_range_effect strict) in Hp as (_ & pool & Hpool & Hstep).
  by rewrite (pool_of_Some _ _ _ Hpool).
Qed.
End remove_effect.

Lemma step_effect (strict : Prop) may_return p p' :
  (∀ p hash id, may_return p hash id → strict → handed_out p hash id) →
  step may_return p p' → effect strict p p'.
Proof.
  intros Hguard Hstep. destruct Hstep.
  - apply GetDB_effect.
  - apply AddTestDatabase_effect.
  - apply ReturnTestDatabase_effect. by apply Hguard.
  - apply RemoveAllWithHash_effect.
  - apply RemoveAll_effect.
Qed.

(** * What every run keeps *)

Lemma effect_ok strict p p' : effect strict p p' → pool_ok p → pool_ok p'.
Proof.
  intros [Hmax Heff] Hok hash pool' Hp. rewrite Hmax.
  assert (hashpool_ok (maxPoolSize p) (pool_of p hash)) as Hold.
  { unfold pool_of. destruct (pools p !! hash) as [pool|] eqn:Hh; simpl.
    - by eapply Hok.
    - apply freshHashPool_ok. }
  destruct (Heff hash pool' Hp) as [->|Hstep]; [done|].
  by eapply hp_step_ok.
Qed.

Lemma effect_strict p p' :
  effect True p p' → pool_ok p → pool_strict p → pool_strict p'.
Proof.
  intros [Hmax Heff] Hok Hstrict hash pool' Hp.
  assert (hashpool_ok (maxPoolSize p) (pool_of p hash)
          ∧ hashpool_strict (pool_of p hash)) as [Hold Hsold].
  { unfold pool_of. destruct (pools p !! hash) as [pool|] eqn:Hh; simpl.
    - split; [by eapply Hok|by eapply Hstrict].
    - split; [apply freshHashPool_ok|apply freshHashPool_strict]. }
  destruct (Heff hash pool' Hp) as [->|Hstep]; [done|].
  by eapply hp_step_strict.
Qed.

Lemma NewDBPool_ok maxSize : pool_ok (NewDBPool maxSize).
Proof. intros hash pool Hp. simpl in Hp. by rewrite lookup_empty in Hp. Qed.

Lemma NewDBPool_strict maxSize : pool_strict (NewDBPool maxSize).
Proof. intros hash pool Hp. simpl in Hp. by rewrite lookup_empty in Hp. Qed.

Lemma reachable_ok may_return maxSize p :
  reachable may_return maxSize p → pool_ok p ∧ maxPoolSize p = maxSize.
Proof.
  revert p. apply rtc_ind_r; [split; [apply NewDBPool_ok|done]|].
  intros p p' Hp Hstep [IHok IHmax].
  assert (effect False p p') as Heff.
  { eapply step_effect; [|done]. intros ? ? ? _ []. }
  split; [by eapply effect_ok|]. destruct Heff as [-> _]. done.
Qed.

Lemma reachable_strict maxSize p :
  reachable handed_out maxSize p → pool_strict p.
Proof.
  revert p. apply rtc_ind_r; [apply NewDBPool_strict|].
  intros p p' Hp Hstep IH.
  assert (effect True p p') as Heff.
  { eapply step_effect; [|done]. auto. }
  eapply effect_strict; [done| |done].
  by eapply (reachable_ok handed_out maxSize).
Qed.

Lemma step_any_id may_return p p' : step may_return p p' → step any_id p p'.
Proof. intros Hstep. destruct Hstep; by constructor. Qed.

Lemma reachable_any_id may_return maxSize p :
  reachable may_return maxSize p → reachable any_id maxSize p.
Proof.
  revert p. apply rtc_ind_r; [apply rtc_refl|].
  intros p p' Hp Hstep IH. eapply rtc_r; [done|]. by eapply step_any_id.
Qed.

(** The partition, read on the two sets the pool stores. *)
Lemma slot_partition_stored pool :
  slot_partition pool ↔
  (∀ id, in_map (ready pool) id → 0 ≤ id < Z.of_nat (length (dbs pool))) ∧
  (∀ id, in_map (dirty pool) id → 0 ≤ id < Z.of_nat (length (dbs pool))) ∧
  (∀ id, in_map (ready pool) id → in_map (dirty pool) id → False).
Proof.
  unfold in_map. split.
  - intros (inUse & recycling & _ & Hrd & _ & _ & _ & _ & Hcover). split_and!.
    + intros id Hid. apply Hcover. rewrite !elem_of_union, !elem_of_dom. tauto.
    + intros id Hid. apply Hcover. rewrite !elem_of_union, !elem_of_dom. tauto.
    + intros id Hr%elem_of_dom Hd%elem_of_dom. exact (Hrd id Hr Hd).
  - intros (Hready & Hdirty & Hdisj).
    exists (list_to_set (seqZ 0 (Z.of_nat (length (dbs pool))))
              ∖ (dom (ready pool) ∪ dom (dirty pool))), ∅.
    split_and!; try (apply elem_of_disjoint; intros id;
      rewrite ?elem_of_difference, ?elem_of_union, ?elem_of_dom, ?elem_of_empty;
      try tauto).
    + intros Hr Hd. by eapply Hdisj.
    + intros id. rewrite !elem_of_union, elem_of_difference, elem_of_list_to_set,
        elem_of_seqZ, elem_of_union, !elem_of_dom. split.
      * intros [[[Hr|[Hin _]]|Hd]|Hn]; [by apply Hready|lia|by apply Hdirty|].
        by apply not_elem_of_empty in Hn.
      * intros Hin.
        destruct (decide (is_Some (ready pool !! id))); [by left; left; left|].
        destruct (decide (is_Some (dirty pool !! id))); [by left; right|].
        left. left. right. split; [lia|]. tauto.
Qed.

(** * [GetDB] *)

Lemma GetDB_index_valid p pool index isDirty :
  0 ≤ index < maxPoolSize p → index < Z.of_nat (length (dbs pool)) →
  ∃ d, dbs pool !! Z.to_nat index = Some d ∧
       GetDB_index p pool index isDirty = (d, isDirty, None).
Proof.
  intros Hmax Hlen.
  destruct (lookup_lt_is_Some_2 (dbs pool) (Z.to_nat index)) as [d Hd]; [lia|].
  exists d. split; [done|]. unfold GetDB_index.
  rewrite !bool_decide_eq_false_2 by lia. simpl. by rewrite Hd.
Qed.

Lemma GetDB_index_invalid p pool index isDirty :
  Z.of_nat (length (dbs pool)) ≤ index →
  GetDB_index p pool index isDirty = (zeroTestDatabase, isDirty, Some ErrInvalidIndex).
Proof.
  intros Hlen. unfold GetDB_index.
  destruct (_ || _); [done|]. by rewrite bool_decide_eq_true_2 by lia.
Qed.

Lemma GetDB_unknown order p hash :
  pools p !! hash = None →
  GetDB order p hash = (zeroTestDatabase, false, Some ErrUnknownHash, p).
Proof. intros Hp. unfold GetDB. by rewrite Hp. Qed.

Lemma GetDB_ready order p hash pool :
  pools p !! hash = Some pool → (0 < size (ready pool))%nat →
  ∃ id, in_map (ready pool) id ∧
    let pool' := mkHashPool (dbs pool) (delete id (ready pool)) (dirty pool) in
    GetDB order p hash = (GetDB_index p pool' id false, store p hash pool').
Proof.
  intros Hp Hready. unfold GetDB. rewrite Hp, bool_decide_eq_true_2 by done.
  destruct (popFirstKey_nonempty order (ready pool) Hready) as (id & Hid & ->).
  by exists id.
Qed.

Lemma GetDB_dirty order p hash pool :
  pools p !! hash = Some pool →
  size (ready pool) = 0%nat → (0 < size (dirty pool))%nat →
  ∃ id, in_map (dirty pool) id ∧
    let pool' := mkHashPool (dbs pool) (ready pool) (delete id (dirty pool)) in
    GetDB order p hash = (GetDB_index p pool' id true, store p hash pool').
Proof.
  intros Hp Hready Hdirty. unfold GetDB.
  rewrite Hp, bool_decide_eq_false_2, bool_decide_eq_false_2 by lia.
  destruct (popFirstKey_nonempty order (dirty pool) Hdirty) as (id & Hid & ->).
  by exists id.
Qed.

Lemma GetDB_none order p hash pool :
  pools p !! hash = Some pool →
  size (ready pool) = 0%nat → size (dirty pool) = 0%nat →
  GetDB order p hash = (zeroTestDatabase, false, Some ErrNoDBReady, p).
Proof.
  intros Hp Hready Hdirty. unfold GetDB.
  by rewrite Hp, bool_decide_eq_false_2, bool_decide_eq_true_2 by lia.
Qed.

(** In a run, an id taken from [ready] is always the index of a slot. *)
Lemma GetDB_ready_slot may_return maxSize order p hash pool :
  reachable may_return maxSize p →
  pools p !! hash = Some pool → (0 < size (ready pool))%nat →
  ∃ id d, in_map (ready pool) id ∧ dbs pool !! Z.to_nat id = Some d ∧
    GetDB order p hash =
      (d, false, None,
       store p hash (mkHashPool (dbs pool) (delete id (ready pool)) (dirty pool))).
Proof.
  intros Hreach Hp Hready.
  apply reachable_ok in Hreach as [Hok _].
  destruct (Hok hash pool Hp) as [Hr _ Hmax _ _ _].
  destruct (GetDB_ready order p hash pool Hp Hready) as (id & Hid & Hget).
  simpl in Hget. specialize (Hr id Hid).
  destruct (GetDB_index_valid p
              (mkHashPool (dbs pool) (delete id (ready pool)) (dirty pool))
              id false) as (d & Hd & Hidx); simpl.
  - destruct Hmax as [Hnil|Hmax]; [rewrite Hnil in Hr; simpl in Hr|]; lia.
  - lia.
  - exists id, d. split_and!; [done..|]. by rewrite Hget, Hidx.
Qed.

(** * Sample runs are runs *)

Lemma reachable_step may_return maxSize p p' :
  reachable may_return maxSize p → step may_return p p' →
  reachable may_return maxSize p'.
Proof. intros Hreach Hstep. by eapply rtc_r. Qed.

Lemma one_ready_reachable may_return : reachable may_return 2 sample.one_ready.
Proof.
  eapply reachable_step; [apply rtc_refl|].
  apply step_AddTestDatabase. by vm_compute.
Qed.

Lemma one_in_use_reachable may_return : reachable may_return 2 sample.one_in_use.
Proof.
  eapply reachable_step; [apply one_ready_reachable|]. apply step_GetDB.
Qed.

Lemma one_dirty_reachable : reachable handed_out 2 sample.one_dirty.
Proof.
  eapply reachable_step; [apply one_in_use_reachable|].
  apply step_ReturnTestDatabase. intros pool Hp. vm_compute in Hp.
  injection Hp as <-. split; [simpl; lia|reflexivity].
Qed.

Lemma one_ready_and_dirty_reachable :
  reachable any_id 2 sample.one_ready_and_dirty.
Proof.
  eapply reachable_step; [apply one_ready_reachable|].
  by apply step_ReturnTestDatabase.
Qed.

Lemma three_ready_reachable may_return : reachable may_return 5 sample.three_ready.
Proof.
  repeat (eapply reachable_step; [|apply step_AddTestDatabase; by vm_compute]).
  apply rtc_refl.
Qed.

(** * The slot states *)

(** C1, as the code has it.  The pool stores two index sets, [ready] and
    [dirty]; a slot in neither is in use, and nothing is ever recycling.  In
    every run the [ready] ids are indices of slots and the [dirty] ids are
    below the size limit.  [ReturnTestDatabase] does not look whether the id
    was handed out; in the runs where callers return only ids of slots that
    are not in [ready], the sets partition the slot space. *)
Theorem slot_sets_invariant maxSize p hash pool :
  pools p !! hash = Some pool →
  (reachable any_id maxSize p →
     (∀ id, in_map (ready pool) id → 0 ≤ id < Z.of_nat (length (dbs pool))) ∧
     (∀ id, in_map (dirty pool) id → 0 ≤ id < maxSize)) ∧
  (reachable handed_out maxSize p → slot_partition pool).
Proof.
  intros Hp. split.
  - intros Hreach. apply reachable_ok in Hreach as [Hok <-].
    destruct (Hok hash pool Hp) as [Hr Hd _ _ _ _]. done.
  - intros Hreach. apply slot_partition_stored.
    pose proof (reachable_strict _ _ Hreach hash pool Hp) as [Hd Hdisj].
    apply reachable_ok in Hreach as [Hok _].
    destruct (Hok hash pool Hp) as [Hr _ _ _ _ _]. done.
Qed.

Lemma slot_sets_invariant_witness :
  ∃ pool, pools sample.one_dirty !! "abc" = Some pool ∧
          in_map (dirty pool) 0 ∧ slot_partition pool.
Proof.
  eexists. split; [reflexivity|]. split; [by eexists|].
  apply (slot_sets_invariant 2 sample.one_dirty "abc"); [reflexivity|].
  apply one_dirty_reachable.
Defined.

(** C1, as the spec has it, fails: after [AddTestDatabase] the new id 0 is
    in [ready]; [ReturnTestDatabase] for id 0 succeeds all the same and puts
    it into [dirty] as well. *)
Lemma slot_partition_counterexample :
  reachable any_id 2 sample.one_ready_and_dirty ∧
  ∃ pool, pools sample.one_ready_and_dirty !! "abc" = Some pool ∧
          in_map (ready pool) 0 ∧ in_map (dirty pool) 0 ∧
          ¬ slot_partition pool.
Proof.
  split; [apply one_ready_and_dirty_reachable|].
  eexists. split; [reflexivity|].
  assert (∀ m : dbIDMap, m !! 0 = Some true → in_map m 0) as Hin by (by eexists).
  split_and!; [by apply Hin..|].
  intros Hpart%slot_partition_stored. destruct Hpart as (_ & _ & Hdisj).
  apply (Hdisj 0); by apply Hin.
Qed.

(** C10.  In every run the ids in [ready] are indices of slots and below
    the size limit, so a [GetDB] that finds [ready] non-empty passes both
    bounds checks: it returns the slot, not dirty, and no error. *)
Theorem ready_ids_valid maxSize order p hash pool :
  reachable any_id maxSize p → pools p !! hash = Some pool →
  (∀ id, in_map (ready pool) id →
         0 ≤ id < Z.of_nat (length (dbs pool)) ∧ id < maxPoolSize p) ∧
  ((0 < size (ready pool))%nat →
   ∃ id d, in_map (ready pool) id ∧ dbs pool !! Z.to_nat id = Some d ∧
     GetDB order p hash =
       (d, false, None,
        store p hash (mkHashPool (dbs pool) (delete id (ready pool)) (dirty pool)))).
Proof.
  intros Hreach Hp. split.
  - apply reachable_ok in Hreach as [Hok _].
    destruct (Hok hash pool Hp) as [Hr _ Hmax _ _ _].
    intros id Hid. specialize (Hr id Hid). split; [done|].
    destruct Hmax as [Hnil|Hmax]; [rewrite Hnil in Hr; simpl in Hr|]; lia.
  - by apply (GetDB_ready_slot any_id maxSize).
Qed.

Lemma ready_ids_valid_witness :
  ∃ pool, pools sample.three_ready !! "abc" = Some pool ∧
    (∀ id, in_map (ready pool) id →
           0 ≤ id < Z.of_nat (length (dbs pool)) ∧ id < 5) ∧
    ∃ id d, in_map (ready pool) id ∧ dbs pool !! Z.to_nat id = Some d ∧
      (GetDB [1] sample.three_ready "abc").1 = (d, false, None).
Proof.
  eexists. split; [reflexivity|].
  destruct (ready_ids_valid 5 [1] sample.three_ready "abc" _
              (three_ready_reachable any_id) eq_refl) as [Hvalid Hget].
  split; [exact Hvalid|].
  destruct Hget as (id & d & Hid & Hd & Heq); [vm_compute; lia|].
  exists id, d. split_and!; [done..|]. by rewrite Heq.
Defined.


(** * The order of preference of [GetDB] *)




(** * [ReturnTestDatabase] *)

Lemma ReturnTestDatabase_in_range p hash id pool :
  0 ≤ id < maxPoolSize p → pools p !! hash = Some pool →
  ReturnTestDatabase p hash id =
    if bool_decide (dirty pool !! id = Some true) then (Some ErrUnknownID, p)
    else (None, store p hash (mkHashPool (dbs pool) (ready pool)
                                         (<[id := true]> (dirty pool)))).
Proof.
  intros Hid Hp. unfold ReturnTestDatabase.
  rewrite !bool_decide_eq_false_2 by lia. simpl. rewrite Hp.
  destruct (dirty pool !! id) as [[|]|] eqn:Hd.
  - rewrite !bool_decide_eq_true_2; [done..|].
    apply (size_pos_in_map _ id). by eexists.
  - simpl default. by rewrite andb_false_r, bool_decide_eq_false_2.
  - simpl default. by rewrite andb_false_r, bool_decide_eq_false_2.
Qed.

(** C3, as the code has it.  For an id inside the size limit and a hash with
    a hash pool, [ReturnTestDatabase] returns [ErrUnknownID] exactly when the
    id is in [dirty] already; every other id is accepted and put into
    [dirty], be it in use, still in [ready] or never allocated. *)
Theorem ReturnTestDatabase_unknown_id maxSize p hash id pool :
  reachable any_id maxSize p → 0 ≤ id < maxSize →
  pools p !! hash = Some pool →
  (in_map (dirty pool) id →
   ReturnTestDatabase p hash id = (Some ErrUnknownID, p)) ∧
  (¬ in_map (dirty pool) id →
   ReturnTestDatabase p hash id =
     (None, store p hash (mkHashPool (dbs pool) (ready pool)
                                     (<[id := true]> (dirty pool))))).
Proof.
  intros [Hok <-]%reachable_ok Hid Hp.
  rewrite (ReturnTestDatabase_in_range p hash id pool Hid Hp).
  destruct (Hok hash pool Hp) as [_ _ _ _ _ Htrue]. split.
  - intros [b Hb]. rewrite (Htrue id b Hb) in Hb.
    by rewrite bool_decide_eq_true_2.
  - intros Hnot. rewrite bool_decide_eq_false_2; [done|].
    intros Hd. apply Hnot. by eexists.
Qed.

Lemma ReturnTestDatabase_unknown_id_witness :
  ReturnTestDatabase sample.one_dirty "abc" 0 = (Some ErrUnknownID, sample.one_dirty) ∧
  (ReturnTestDatabase sample.one_ready "abc" 1).1 = None.
Proof.
  split.
  - apply (ReturnTestDatabase_unknown_id 2 sample.one_dirty "abc" 0 _
             (reachable_any_id _ _ _ one_dirty_reachable) ltac:(lia) eq_refl).
    by eexists.
  - destruct (ReturnTestDatabase_unknown_id 2 sample.one_ready "abc" 1 _
                (one_ready_reachable any_id) ltac:(lia) eq_refl) as [_ Hfresh].
    rewrite Hfresh; [done|]. intros [b Hb]. vm_compute in Hb. discriminate.
Defined.

(** C3, as the spec has it, fails: id 0 is still in [ready] and id 1 was
    never allocated, no [GetDB] handed either out, and [ReturnTestDatabase]
    accepts both. *)
Lemma ReturnTestDatabase_counterexample :
  ∃ pool, pools sample.one_ready !! "abc" = Some pool ∧
    0 ≤ 0 < maxPoolSize sample.one_ready ∧ in_map (ready pool) 0 ∧
    (ReturnTestDatabase sample.one_ready "abc" 0).1 ≠ Some ErrUnknownID ∧
    Z.of_nat (length (dbs pool)) ≤ 1 < maxPoolSize sample.one_ready ∧
    (ReturnTestDatabase sample.one_ready "abc" 1).1 ≠ Some ErrUnknownID.
Proof.
  eexists. split; [reflexivity|].
  split_and!; try by vm_compute.
  by eexists.
Qed.

(** C5.  [ReturnTestDatabase] checks the id against the size limit first,
    before it looks for the hash pool; with the id inside the limit it
    returns [ErrUnknownHash] when the hash has no hash pool; and right after
    a call that succeeded, the same call returns [ErrUnknownID]. *)
Theorem ReturnTestDatabase_errors p hash id :
  ((id < 0 ∨ maxPoolSize p ≤ id) →
   ReturnTestDatabase p hash id = (Some ErrInvalidIndex, p)) ∧
  (0 ≤ id < maxPoolSize p → pools p !! hash = None →
   ReturnTestDatabase p hash id = (Some ErrUnknownHash, p)) ∧
  (∀ p', ReturnTestDatabase p hash id = (None, p') →
         ReturnTestDatabase p' hash id = (Some ErrUnknownID, p')).
Proof.
  split_and!.
  - intros Hout. unfold ReturnTestDatabase.
    destruct (bool_decide (id < 0) || bool_decide (id >= maxPoolSize p)) eqn:Hb;
      [done|].
    apply orb_false_iff in Hb as [H1%bool_decide_eq_false H2%bool_decide_eq_false].
    lia.
  - intros Hin Hp. unfold ReturnTestDatabase.
    rewrite !bool_decide_eq_false_2 by lia. simpl. by rewrite Hp.
  - intros p'. unfold ReturnTestDatabase at 1.
    destruct (bool_decide (id < 0) || bool_decide (id >= maxPoolSize p)) eqn:Hb;
      [done|].
    apply orb_false_iff in Hb as [H1%bool_decide_eq_false H2%bool_decide_eq_false].
    destruct (pools p !! hash) as [pool|] eqn:Hp; [|done].
    destruct (_ && _); [done|]. intros [= <-].
    rewrite (ReturnTestDatabase_in_range _ hash id
               (mkHashPool (dbs pool) (ready pool) (<[id := true]> (dirty pool))));
      [|simpl; lia|simpl; by rewrite lookup_insert_eq].
    simpl. by rewrite lookup_insert_eq, bool_decide_eq_true_2.
Qed.

Lemma ReturnTestDatabase_errors_witness :
  ReturnTestDatabase sample.one_in_use "zzz" 99
    = (Some ErrInvalidIndex, sample.one_in_use) ∧
  ReturnTestDatabase sample.one_in_use "zzz" 0
    = (Some ErrUnknownHash, sample.one_in_use) ∧
  ReturnTestDatabase sample.one_dirty "abc" 0
    = (Some ErrUnknownID, sample.one_dirty).
Proof.
  split_and!.
  - apply (ReturnTestDatabase_errors sample.one_in_use "zzz" 99).
    right. by vm_compute.
  - apply (ReturnTestDatabase_errors sample.one_in_use "zzz" 0);
      [split; by vm_compute|reflexivity].
  - apply (ReturnTestDatabase_errors sample.one_in_use "abc" 0). reflexivity.
Defined.

(** * [AddTestDatabase] *)

Lemma lookup_store p hash pool : pools (store p hash pool) !! hash = Some pool.
Proof. simpl. apply lookup_insert_eq. Qed.





(** C9, as the code has it.  For a hash without a hash pool, [GetDB]
    returns [ErrUnknownHash]; [ReturnTestDatabase] returns [ErrUnknownHash]
    for an id inside the size limit and [ErrInvalidIndex] for any other id.
    [AddTestDatabase] asks nobody whether the hash is known.  When the
    fresh hash pool can be made (a size limit of at least 0, and memory for
    the slice) it is stored whatever the call returns: the call returns
    [ErrPoolFull] under a size limit of 0, the error of [initFunc] when that
    fails, and slot 0 otherwise.  When the fresh hash pool cannot be made
    the call panics and stores nothing. *)
Theorem unknown_hash p hash :
  pools p !! hash = None →
  (∀ order, GetDB order p hash = (zeroTestDatabase, false, Some ErrUnknownHash, p)) ∧
  (∀ id, 0 ≤ id < maxPoolSize p →
         ReturnTestDatabase p hash id = (Some ErrUnknownHash, p)) ∧
  (∀ id, ¬ (0 ≤ id < maxPoolSize p) →
         ReturnTestDatabase p hash id = (Some ErrInvalidIndex, p)) ∧
  (∀ memory template dbNamePrefix initFunc,
     TemplateHash template = hash →
     let r := AddTestDatabase memory p template dbNamePrefix initFunc in
     let slot := newTestDB template dbNamePrefix 0 in
     (0 ≤ maxPoolSize p → memory = true →
      is_Some (pools r.2 !! hash) ∧
      (maxPoolSize p = 0 →
       r = (zeroTestDatabase, Return (Some ErrPoolFull), store p hash freshHashPool)) ∧
      (0 < maxPoolSize p → ∀ err, initFunc slot = Some err →
       r = (zeroTestDatabase, Return (Some err), store p hash freshHashPool)) ∧
      (0 < maxPoolSize p → initFunc slot = None →
       r = (slot, Return None, store p hash (mkHashPool [slot] {[0 := true]} ∅)))) ∧
     (maxPoolSize p < 0 ∨ memory = false → r = (zeroTestDatabase, Panic, p))).
Proof.
  intros Hp. split_and!.
  - intros order. by apply GetDB_unknown.
  - intros id Hid. unfold ReturnTestDatabase.
    rewrite !bool_decide_eq_false_2 by lia. simpl. by rewrite Hp.
  - intros id Hid. unfold ReturnTestDatabase.
    destruct (bool_decide (id < 0) || bool_decide (id >= maxPoolSize p)) eqn:Hb;
      [done|].
    apply orb_false_iff in Hb as [H1%bool_decide_eq_false H2%bool_decide_eq_false].
    lia.
  - intros memory template dbNamePrefix initFunc <- r slot. subst r. split.
    + intros Hmax ->.
      rewrite AddTestDatabase_unfold by (by right).
      rewrite (pool_of_None _ _ Hp).
      change (Z.of_nat (length (dbs freshHashPool))) with 0. fold slot.
      case_bool_decide as Hfull; [|destruct (initFunc slot) as [err|] eqn:Hinit];
        (split_and!; simpl; rewrite ?lookup_insert_eq; [by eexists|..]);
        try done; try (intros; lia).
      by intros _ err' [= <-].
    + intros Hnot. apply AddTestDatabase_panics.
      intros [[x Hx]|[Hmax Hmem]]; [congruence|].
      destruct Hnot as [Hneg| ->]; [lia|done].
Qed.

Lemma unknown_hash_witness :
  GetDB [] (NewDBPool 2) "abc"
    = (zeroTestDatabase, false, Some ErrUnknownHash, NewDBPool 2) ∧
  ReturnTestDatabase (NewDBPool 2) "abc" 0 = (Some ErrUnknownHash, NewDBPool 2) ∧
  ReturnTestDatabase (NewDBPool 2) "abc" 2 = (Some ErrInvalidIndex, NewDBPool 2) ∧
  (AddTestDatabase true (NewDBPool 2) sample.template "test_abc_" sample.init_ok).1
    = (newTestDB sample.template "test_abc_" 0, Return None) ∧
  (AddTestDatabase true (NewDBPool (-1)) sample.template "test_abc_"
     sample.init_ok).1.2 = Panic.
Proof.
  destruct (unknown_hash (NewDBPool 2) "abc" eq_refl)
    as (Hget & Hret & Hrange & Hadd).
  destruct (unknown_hash (NewDBPool (-1)) "abc" eq_refl) as (_ & _ & _ & Hneg).
  split_and!.
  - apply Hget.
  - apply Hret. simpl. lia.
  - apply Hrange. simpl. lia.
  - destruct (Hadd true sample.template "test_abc_" sample.init_ok eq_refl)
      as [Hmade _].
    destruct Hmade as (_ & _ & _ & Hok); [simpl; lia|done|].
    rewrite Hok; [done|simpl; lia|done].
  - destruct (Hneg true sample.template "test_abc_" sample.init_ok eq_refl)
      as [_ Hpanic].
    rewrite Hpanic; [done|]. left. simpl. lia.
Defined.

(** C9, as the spec has it, fails: for a hash without hash pool,
    [ReturnTestDatabase] with an id outside the size limit answers
    [ErrInvalidIndex], not [ErrUnknownHash], and [AddTestDatabase] with an
    [initFunc] that fails does not succeed. *)
Lemma unknown_hash_counterexample :
  pools (NewDBPool 2) !! "abc" = None ∧
  (ReturnTestDatabase (NewDBPool 2) "abc" 2).1 ≠ Some ErrUnknownHash ∧
  (AddTestDatabase true (NewDBPool 2) sample.template "test_abc_"
     sample.init_fail).1.2 ≠ Return None.
Proof. split_and!; by vm_compute. Qed.

(** * [RemoveAllWithHash] keeps the hash pool *)

Lemma GetDB_known order p hash :
  is_Some (pools p !! hash) → (GetDB order p hash).1.2 ≠ Some ErrUnknownHash.
Proof.
  intros [pool Hp]. unfold GetDB. rewrite Hp.
  assert (∀ q x index isDirty,
            (GetDB_index q x index isDirty).2 ≠ Some ErrUnknownHash) as Hidx.
  { intros q x index isDirty. unfold GetDB_index.
    repeat (case_match; simpl; try done). }
  case_bool_decide.
  - destruct (popFirstKey order (ready pool)) as [index ready']. simpl. apply Hidx.
  - case_bool_decide; [done|].
    destruct (popFirstKey order (dirty pool)) as [index dirty']. simpl. apply Hidx.
Qed.

(** C4 fails on the code.  [RemoveAllWithHash] drains the hash pool and
    leaves the drained hash pool in the map: after a call that succeeded the
    hash still has a hash pool, without slots, and no [GetDB] for the hash
    returns [ErrUnknownHash]. *)
Theorem RemoveAllWithHash_keeps_hash_pool
    {W : Type} (removeFunc : TestDatabase → W → option error * W) p hash w pool :
  pools p !! hash = Some pool →
  let r := RemoveAllWithHash removeFunc p hash w in
  r.1.1 = Return None →
  ∃ pool', pools r.1.2 !! hash = Some pool' ∧ dbs pool' = [] ∧
           ∀ order, (GetDB order r.1.2 hash).1.2 ≠ Some ErrUnknownHash.
Proof.
  intros Hp r Hr. subst r. unfold RemoveAllWithHash in *. rewrite Hp in *.
  destruct (removeAllFromPool_spec removeFunc pool w)
    as (k & x & pool' & w' & Hrun & [_ Hdbs _ _] & Hexit).
  rewrite Hrun in *. simpl in *. subst x.
  destruct Hexit as [[_ ->]|(e & k0 & d & w0 & [=] & _)].
  exists pool'. split_and!; [by rewrite lookup_insert_eq|done|].
  intros order. apply GetDB_known. simpl. rewrite lookup_insert_eq. by eexists.
Qed.

Lemma RemoveAllWithHash_keeps_hash_pool_witness :
  (RemoveAllWithHash sample.remove_ok sample.one_ready "abc" tt).1.1 = Return None ∧
  (GetDB [] (RemoveAllWithHash sample.remove_ok sample.one_ready "abc" tt).1.2
     "abc").1.2 = Some ErrNoDBReady ∧
  ∃ pool', pools (RemoveAllWithHash sample.remove_ok sample.one_ready "abc" tt).1.2
             !! "abc" = Some pool' ∧ dbs pool' = [].
Proof.
  split; [reflexivity|]. split; [reflexivity|].
  destruct (RemoveAllWithHash_keeps_hash_pool sample.remove_ok sample.one_ready
              "abc" tt _ eq_refl eq_refl) as (pool' & Hp & Hdbs & _).
  by exists pool'.
Defined.

(** * The database name *)

Lemma string_app_cons c (s t : string) :
  (String c s ++ t)%string = String c (s ++ t)%string.
Proof. reflexivity. Qed.

Lemma string_app_nil_r (s : string) : (s ++ "")%string = s.
Proof. induction s as [|c s IH]; [done|]. by rewrite string_app_cons, IH. Qed.

Lemma decimal_value_app s t a :
  fmt.decimal_value (s ++ t) a = fmt.decimal_value t (fmt.decimal_value s a).
Proof.
  revert a. induction s as [|c s IH]; intros a; [done|].
  rewrite string_app_cons. simpl. apply IH.
Qed.

Lemma decimal_value_digit u a :
  fmt.decimal_value (String (fmt.digit u) "") a = (10 * a + u mod 10)%N.
Proof.
  simpl. unfold fmt.digit.
  pose proof (N.mod_upper_bound u 10 ltac:(done)) as Hlt.
  revert Hlt. generalize (u mod 10)%N. intros r Hr.
  rewrite N_ascii_embedding; lia.
Qed.

Lemma string_app_length (s t : string) :
  String.length (s ++ t) = (String.length s + String.length t)%nat.
Proof.
  induction s as [|c s IH]; [done|]. rewrite string_app_cons. simpl. by rewrite IH.
Qed.

Lemma string_app_assoc (s t r : string) : ((s ++ t) ++ r = s ++ (t ++ r))%string.
Proof.
  induction s as [|c s IH]; [done|]. by rewrite !string_app_cons, IH.
Qed.

(** The digits [fmtInteger] writes stand for the number, given room for
    them. *)
Lemma fmtInteger_digits_value fuel u acc :
  (u < 10 ^ N.of_nat (S fuel))%N →
  ∃ s, fmt.fmtInteger_digits fuel u acc = (s ++ acc)%string ∧
       (1 ≤ String.length s)%nat ∧
       ∀ a, fmt.decimal_value s a = (a * 10 ^ N.of_nat (String.length s) + u)%N.
Proof.
  revert u acc. induction fuel as [|fuel IH]; intros u acc Hu.
  - exists (String (fmt.digit u) ""). split_and!; [done|simpl; lia|].
    intros a. rewrite decimal_value_digit. change (10 ^ N.of_nat 1)%N with 10%N in *.
    simpl String.length. change (10 ^ N.of_nat 1)%N with 10%N.
    rewrite N.mod_small by done. lia.
  - simpl fmt.fmtInteger_digits. destruct (10 <=? u)%N eqn:Hten.
    + apply N.leb_le in Hten.
      destruct (IH (u / 10)%N (String (fmt.digit u) acc)) as (s & Hs & Hlen & Hval).
      { apply N.Div0.div_lt_upper_bound.
        rewrite <- N.pow_succ_r', <- Nat2N.inj_succ. done. }
      exists (s ++ String (fmt.digit u) "")%string. split_and!.
      * by rewrite Hs, string_app_assoc.
      * rewrite string_app_length. lia.
      * intros a. rewrite decimal_value_app, decimal_value_digit, Hval.
        rewrite string_app_length. simpl String.length.
        replace (N.of_nat (String.length s + 1)) with (N.succ (N.of_nat (String.length s))) by lia.
        rewrite N.pow_succ_r'.
        pose proof (N.Div0.div_mod u 10). lia.
    + apply N.leb_gt in Hten.
      exists (String (fmt.digit u) ""). split_and!; [done|simpl; lia|].
      intros a. rewrite decimal_value_digit. simpl String.length.
      change (10 ^ N.of_nat 1)%N with 10%N. rewrite N.mod_small by done. lia.
Qed.

Lemma size_nat_pow10 u : (u < 10 ^ N.of_nat (S (N.size_nat u)))%N.
Proof.
  assert (∀ p, (N.pos p < 10 ^ N.of_nat (Pos.size_nat p))%N) as Hpos.
  { induction p as [p IH|p IH|]; simpl Pos.size_nat;
      rewrite ?Nat2N.inj_succ, ?N.pow_succ_r'; simpl; lia. }
  rewrite Nat2N.inj_succ, N.pow_succ_r'. destruct u as [|p]; simpl N.size_nat.
  - simpl. lia.
  - specialize (Hpos p). lia.
Qed.

Lemma zeros_value n s :
  fmt.decimal_value (fmt.zeros n s) 0 = fmt.decimal_value s 0 ∧
  String.length (fmt.zeros n s) = (n + String.length s)%nat.
Proof.
  induction n as [|n [IHv IHl]]; simpl; [done|].
  split; [done|by rewrite IHl].
Qed.

(** The rendering of an id stands for the id and is at least three
    characters wide. *)
Lemma fmt_03d_value v :
  0 ≤ v →
  fmt.decimal_value (fmt.fmt_03d v) 0 = Z.to_N v ∧
  (3 ≤ String.length (fmt.fmt_03d v))%nat.
Proof.
  intros Hv. unfold fmt.fmt_03d. rewrite bool_decide_eq_false_2 by lia.
  destruct (fmtInteger_digits_value (N.size_nat (Z.abs_N v)) (Z.abs_N v) "")
    as (s & Hs & Hlen & Hval); [apply size_nat_pow10|].
  rewrite Hs.
  rewrite string_app_nil_r.
  destruct (zeros_value (3 - String.length s) s) as [-> ->].
  rewrite Hval. split; lia.
Qed.

(** Below 1000 the rendering is the three digits. *)
Lemma fmt_03d_three_digits v :
  0 ≤ v < 1000 → fmt.fmt_03d v = fmt.three_digits v.
Proof.
  intros Hv.
  assert (forallb (λ n, String.eqb (fmt.fmt_03d (Z.of_nat n))
                                   (fmt.three_digits (Z.of_nat n)))
                  (seq 0 1000) = true) as Hall by (vm_compute; reflexivity).
  rewrite forallb_forall in Hall.
  specialize (Hall (Z.to_nat v)). rewrite Z2Nat.id in Hall by lia.
  apply String.eqb_eq, Hall, in_seq. lia.
Qed.

Lemma slot_at_Some p hash i d :
  slot_at p hash i = Some d ↔
  ∃ pool, pools p !! hash = Some pool ∧ dbs pool !! i = Some d.
Proof.
  unfold slot_at. destruct (pools p !! hash) as [pool|]; simpl.
  - split; [by exists pool|]. by intros (? & [= <-] & ?).
  - split; [done|]. by intros (? & ? & ?).
Qed.

(** One call leaves the slots that stay in the pool as they are. *)
Lemma step_slot_at may_return p p' hash i d d' :
  step may_return p p' →
  slot_at p hash i = Some d → slot_at p' hash i = Some d' → d = d'.
Proof.
  intros Hstep (pool & Hp & Hd)%slot_at_Some (pool' & Hp' & Hd')%slot_at_Some.
  assert (effect False p p') as [_ Heff].
  { eapply step_effect; [|done]. intros ? ? ? _ []. }
  destruct (Heff hash pool' Hp') as [->|Hstep'];
    rewrite (pool_of_Some _ _ _ Hp) in *.
  - congruence.
  - by eapply hp_step_slot.
Qed.

Lemma slot_lives_same may_return hash i p p' d :
  slot_lives may_return hash i p p' →
  slot_at p hash i = Some d → slot_at p' hash i = Some d.
Proof.
  intros Hrun. induction Hrun as [p|p p1 p' [Hstep [d1 Hd1]] _ IH]; [done|].
  intros Hd. apply IH. rewrite Hd1. f_equal. symmetry.
  by eapply step_slot_at.
Qed.

(** A successful [AddTestDatabase] returns the slot it made and stored. *)
Lemma AddTestDatabase_success memory p template dbNamePrefix initFunc d p' :
  AddTestDatabase memory p template dbNamePrefix initFunc = (d, Return None, p') →
  let hash := TemplateHash template in
  let pool := pool_of p hash in
  let index := Z.of_nat (length (dbs pool)) in
  d = newTestDB template dbNamePrefix index ∧ index < maxPoolSize p ∧
  p' = store p hash (mkHashPool (dbs pool ++ [d])
                                (<[index := true]> (ready pool)) (dirty pool)).
Proof.
  intros Hadd.
  assert (finds_or_makes memory p (TemplateHash template)) as Hwork.
  { apply (AddTestDatabase_returned _ _ _ dbNamePrefix initFunc). by rewrite Hadd. }
  revert Hadd. rewrite AddTestDatabase_unfold by done. simpl.
  case_bool_decide; [done|]. destruct (initFunc _); [done|].
  intros [= <- <-]. split_and!; [done|lia|done].
Qed.

(** C8.  The slot [AddTestDatabase] makes has the next id, and its database
    name is the prefix followed by the id printed with [%03d]: the decimal
    digits of the id, filled up with leading zeros to three characters (so
    exactly the three digits for an id below 1000).  Every slot of a pool
    has its index as id and a name of this form, and no call changes a slot
    that stays in the pool: over any run in which the slot is not removed,
    the slot, and with it its name, stays the same. *)
Theorem database_name may_return maxSize p :
  reachable may_return maxSize p →
  (∀ memory template dbNamePrefix initFunc d p',
     AddTestDatabase memory p template dbNamePrefix initFunc
       = (d, Return None, p') →
     ID d = Z.of_nat (length (dbs (pool_of p (TemplateHash template)))) ∧
     name_of d = (dbNamePrefix ++ fmt.fmt_03d (ID d))%string ∧
     slot_at p' (TemplateHash template) (Z.to_nat (ID d)) = Some d) ∧
  (∀ id, 0 ≤ id →
     fmt.decimal_value (fmt.fmt_03d id) 0 = Z.to_N id ∧
     (3 ≤ String.length (fmt.fmt_03d id))%nat ∧
     (id < 1000 → fmt.fmt_03d id = fmt.three_digits id)) ∧
  (∀ hash i d, slot_at p hash i = Some d →
     ID d = Z.of_nat i ∧
     ∃ prefix, name_of d = (prefix ++ fmt.fmt_03d (ID d))%string) ∧
  (∀ hash i d p', slot_lives may_return hash i p p' →
     slot_at p hash i = Some d → slot_at p' hash i = Some d).
Proof.
  intros Hreach. split_and!.
  - intros memory template dbNamePrefix initFunc d p' Hadd.
    apply AddTestDatabase_success in Hadd as (Hd & _ & ->).
    subst d. simpl. split_and!; [done..|].
    apply slot_at_Some. eexists. split; [apply lookup_store|]. simpl.
    rewrite Nat2Z.id. by apply list_lookup_middle.
  - intros id Hid. destruct (fmt_03d_value id Hid) as [Hval Hlen].
    split_and!; [done..|]. intros Hlt. by apply fmt_03d_three_digits.
  - intros hash i d (pool & Hp & Hd)%slot_at_Some.
    apply reachable_ok in Hreach as [Hok _].
    destruct (Hok hash pool Hp) as [_ _ _ Hids Hnames _].
    rewrite (Hids i d Hd). split; [done|]. by apply Hnames.
  - intros hash i d p'. apply slot_lives_same.
Qed.

Lemma database_name_witness :
  ∃ d, (AddTestDatabase true sample.one_ready sample.template "test_abc_"
          sample.init_ok).1
         = (d, Return None) ∧
       ID d = 1 ∧ name_of d = "test_abc_001".
Proof.
  destruct (database_name any_id 2 sample.one_ready (one_ready_reachable any_id))
    as (Hadd & _).
  destruct (Hadd true sample.template "test_abc_" sample.init_ok _ _ eq_refl)
    as (Hid & Hname & _).
  eexists. split; [reflexivity|]. split; [exact Hid|]. rewrite Hname. reflexivity.
Defined.

(** * Draining a hash pool *)

Section drain.
Context {W : Type} (removeFunc : TestDatabase → W → option error * W).

(** A drain, with its calls: either every call succeeds, the slots are
    passed from the last one down to the first and the hash pool ends
    empty; or the call for some slot [k] fails, the slots were passed from
    the last one down to [k], and the hash pool ends with the slots up to
    [k].  The log is that of the same run with [logged]. *)
Lemma removeAllFromPool_calls pool log w :
  ∃ r pool' w',
    removeAllFromPool removeFunc pool w = (r, pool', w') ∧
    ((r = Return None ∧ truncated 0 pool pool' ∧
      removeAllFromPool (logged removeFunc) pool (log, w)
        = (r, pool', (log ++ reverse (dbs pool), w'))) ∨
     (∃ e k d w0,
        r = Return (Some e) ∧ truncated (S k) pool pool' ∧
        dbs pool !! k = Some d ∧ removeFunc d w0 = (Some e, w') ∧
        removeAllFromPool (logged removeFunc) pool (log, w)
          = (r, pool', (log ++ reverse (drop k (dbs pool)), w')))).
Proof.
  destruct (removeAllFromPool_spec removeFunc pool w)
    as (k & r & pool' & w' & Hrun & Htr & Hexit).
  exists r, pool', w'. split; [done|].
  destruct (removeAllFromPool (logged removeFunc) pool (log, w))
    as [[r2 pool2] [log2 w2]] eqn:Hlogged.
  destruct (removeAllFromPool_loop_log removeFunc _ pool log w r2 pool2 log2 w2
              eq_refl Hlogged) as (Hsim & _ & Hok & Hfail).
  unfold removeAllFromPool in Hrun. rewrite Hrun in Hsim.
  injection Hsim as <- <- <-.
  destruct Hexit as [[-> ->]|(e & k0 & d & w0 & -> & -> & Hd & Hcall)].
  - left. split_and!; [done..|]. by rewrite (Hok eq_refl).
  - right. exists e, k0, d, w0. split_and!; [done..|].
    rewrite (Hfail e eq_refl). destruct Htr as [Hle -> _ _].
    rewrite length_take.
    by replace (S k0 `min` length (dbs pool) - 1)%nat with k0 by lia.
Qed.

Lemma calls_of_delete p h h' :
  h ≠ h' →
  calls_of (mkDBPool (delete h (pools p)) (maxPoolSize p)) h' = calls_of p h'.
Proof.
  intros Hne. unfold calls_of, pool_of. simpl. by rewrite lookup_delete_ne.
Qed.

(** The loop of [RemoveAll] over hashes that all have a hash pool: either
    every drain succeeds, and every hash pool is deleted; or the drain of
    some hash [h] fails, the hash pools before it are deleted, that of [h]
    is cut down, and the ones after it are untouched. *)
Lemma RemoveAll_range_calls hashes p log w :
  NoDup hashes → (∀ h, h ∈ hashes → is_Some (pools p !! h)) →
  ∃ r p' w',
    RemoveAll_range removeFunc hashes p w = (r, p', w') ∧
    maxPoolSize p' = maxPoolSize p ∧
    ((r = Return None ∧ pools p' = foldr delete (pools p) hashes ∧
      RemoveAll_range (logged removeFunc) hashes p (log, w)
        = (r, p', (log ++ mjoin (calls_of p <$> hashes), w'))) ∨
     (∃ e hs1 h hs2 pool pool' k d,
        r = Return (Some e) ∧ hashes = hs1 ++ h :: hs2 ∧
        pools p !! h = Some pool ∧
        pools p' = <[h := pool']> (foldr delete (pools p) hs1) ∧
        truncated (S k) pool pool' ∧ dbs pool !! k = Some d ∧
        RemoveAll_range (logged removeFunc) hashes p (log, w)
          = (r, p', (log ++ mjoin (calls_of p <$> hs1)
                         ++ reverse (drop k (dbs pool)), w')))).
Proof.
  revert p log w. induction hashes as [|h rest IH]; intros p log w Hnd Hin.
  - exists (Return None), p, w. split_and!; [done..|]. left.
    simpl. by rewrite app_nil_r.
  - apply NoDup_cons in Hnd as [Hh Hnd].
    destruct (Hin h) as [pool Hp]; [left|]. simpl. rewrite Hp.
    destruct (removeAllFromPool_calls pool log w)
      as (r & pool' & w' & -> & [(-> & Htr & ->)|Hfail]).
    + set (p1 := mkDBPool (delete h (pools p)) (maxPoolSize p)).
      destruct (IH p1 (log ++ reverse (dbs pool)) w' Hnd)
        as (r & p' & w'' & -> & Hmax & Hcases).
      { intros h' Hh'. simpl. rewrite lookup_delete_ne; [|by intros ->].
        apply Hin. by right. }
      assert (calls_of p1 <$> rest = calls_of p <$> rest) as Hcalls.
      { apply Forall_fmap_ext, Forall_forall. intros h' Hh'.
        apply calls_of_delete. by intros ->. }
      assert (reverse (dbs pool) = calls_of p h) as Hcall.
      { unfold calls_of. by rewrite (pool_of_Some _ _ _ Hp). }
      exists r, p', w''. split_and!; [done..|].
      destruct Hcases as [(-> & Hpools & ->)
        |(e & hs1 & h1 & hs2 & x & x' & k & d & -> & -> & Hx & Hpools & Hx' & Hd & ->)].
      * left. split_and!; [done| |].
        -- rewrite Hpools. simpl. by rewrite delete_foldr_delete.
        -- by rewrite Hcalls, Hcall, <- app_assoc.
      * right. exists e, (h :: hs1), h1, hs2, x, x', k, d.
        assert (h ≠ h1) as Hne.
        { intros ->. apply Hh. rewrite elem_of_app, elem_of_cons. auto. }
        simpl in Hx. rewrite lookup_delete_ne in Hx by done.
        split_and!; [done..| |done|done|].
        -- rewrite Hpools. simpl. by rewrite delete_foldr_delete.
        -- rewrite !fmap_app in Hcalls. apply app_inj_1 in Hcalls as [-> _];
             [|by rewrite !length_fmap].
           simpl. by rewrite Hcall, <- !app_assoc.
    + destruct Hfail as (e & k & d & w0 & -> & Htr & Hd & Hcall & ->).
      exists (Return (Some e)), (store p h pool'), w'. split_and!; [done..|].
      right. exists e, [], h, rest, pool, pool', k, d. by split_and!.
Qed.
End drain.


Section drain_facts.
Context {W : Type} (removeFunc : TestDatabase → W → option error * W).


End drain_facts.


Lemma foldr_delete_all `{Countable K} {V : Type} (m : gmap K V) (l : list K) :
  (∀ k, is_Some (m !! k) → k ∈ l) → foldr delete m l = ∅.
Proof.
  intros Hall. apply map_eq. intros k. rewrite lookup_empty.
  apply eq_None_not_Some. intros [v Hv].
  apply lookup_foldr_delete_Some in Hv as [Hnot Hv]. apply Hnot, Hall. by eexists.
Qed.




(** * Further properties of the pool *)

(** ** [popFirstKey] *)

(** X1.  On an empty map [popFirstKey] returns [-1] and leaves the map
    empty.  On any other map it returns one of the keys and removes that key
    and nothing else, so the map gets smaller by one; which key it is
    depends on the iteration order only, and every key can come first. *)
Theorem popFirstKey_takes_one order (m : dbIDMap) :
  (m = ∅ → popFirstKey order m = (-1, ∅)) ∧
  (m ≠ ∅ →
   ∃ id, in_map m id ∧ popFirstKey order m = (id, delete id m) ∧
         (size (delete id m) + 1 = size m)%nat ∧
         ∀ key, key ≠ id → delete id m !! key = m !! key) ∧
  (∀ id, in_map m id → popFirstKey [id] m = (id, delete id m)).
Proof.
  split_and!.
  - intros ->. unfold popFirstKey.
    rewrite (proj2 (range_keys_nil order ∅) eq_refl). simpl.
    by rewrite delete_empty.
  - intros Hne.
    destruct (popFirstKey_nonempty order m) as (id & Hid & Hpop).
    { apply map_size_non_empty_iff in Hne. lia. }
    exists id. split_and!; [done..| |].
    + rewrite map_size_delete. destruct Hid as [b ->].
      pose proof (size_pos_in_map m id) as Hpos. simpl.
      apply map_size_non_empty_iff in Hne. lia.
    + intros key Hkey. by apply lookup_delete_ne.
  - apply popFirstKey_any.
Qed.

Lemma popFirstKey_takes_one_witness :
  popFirstKey [] (∅ : dbIDMap) = (-1, ∅) ∧
  popFirstKey [7] (<[3 := true]> (<[7 := true]> (∅ : dbIDMap)))
    = (7, <[3 := true]> ∅).
Proof.
  split.
  - by apply (popFirstKey_takes_one [] ∅).
  - destruct (popFirstKey_takes_one [] (<[3 := true]> (<[7 := true]> ∅)))
      as (_ & _ & Hany).
    rewrite Hany; [reflexivity|by eexists].
Defined.

(** ** Calls for one hash leave the other hashes alone *)

Lemma GetDB_shape order p hash :
  (GetDB order p hash).2 = p ∨
  ∃ pool id,
    pools p !! hash = Some pool ∧
    ((in_map (ready pool) id ∧
      (GetDB order p hash).2
        = store p hash (mkHashPool (dbs pool) (delete id (ready pool)) (dirty pool)))
     ∨ (in_map (dirty pool) id ∧
        (GetDB order p hash).2
          = store p hash (mkHashPool (dbs pool) (ready pool) (delete id (dirty pool))))).
Proof.
  unfold GetDB. destruct (pools p !! hash) as [pool|] eqn:Hp; [|by left].
  case_bool_decide as Hready.
  - destruct (popFirstKey_nonempty order (ready pool) Hready) as (id & Hid & ->).
    right. exists pool, id. split; [done|]. by left.
  - case_bool_decide as Hdirty; [by left|].
    destruct (popFirstKey_nonempty order (dirty pool)) as (id & Hid & ->); [lia|].
    right. exists pool, id. split; [done|]. by right.
Qed.

Lemma ReturnTestDatabase_shape p hash id :
  (ReturnTestDatabase p hash id).2 = p ∨
  ∃ pool, pools p !! hash = Some pool ∧
    (ReturnTestDatabase p hash id).2
      = store p hash (mkHashPool (dbs pool) (ready pool) (<[id := true]> (dirty pool))).
Proof.
  unfold ReturnTestDatabase. destruct (_ || _); [by left|].
  destruct (pools p !! hash) as [pool|] eqn:Hp; [|by left].
  destruct (_ && _); [by left|]. right. by exists pool.
Qed.

Lemma AddTestDatabase_shape memory p template dbNamePrefix initFunc :
  let hash := TemplateHash template in
  let pool := pool_of p hash in
  let slot := newTestDB template dbNamePrefix (Z.of_nat (length (dbs pool))) in
  (AddTestDatabase memory p template dbNamePrefix initFunc).2 = p ∨
  (AddTestDatabase memory p template dbNamePrefix initFunc).2 = store p hash pool ∨
  (Z.of_nat (length (dbs pool)) < maxPoolSize p ∧
   (AddTestDatabase memory p template dbNamePrefix initFunc).2
     = store p hash
         (mkHashPool (dbs pool ++ [slot])
                     (<[Z.of_nat (length (dbs pool)) := true]> (ready pool))
                     (dirty pool))).
Proof.
  intros hash pool slot.
  destruct (finds_or_makes_dec memory p hash) as [Hwork|Hnot].
  - rewrite AddTestDatabase_unfold by done. fold hash pool slot.
    case_bool_decide; [by right; left|].
    destruct (initFunc slot); [by right; left|].
    right. right. split; [lia|done].
  - left. by rewrite AddTestDatabase_panics.
Qed.

(** X2.  [GetDB], [AddTestDatabase], [ReturnTestDatabase] and
    [RemoveAllWithHash] touch the hash pool of their own hash only: the hash
    pool of every other hash is the same afterwards, whatever the call
    returns, and none of them changes the size limit. *)
Theorem other_hashes_untouched {W : Type}
    (removeFunc : TestDatabase → W → option error * W)
    p hash other order id memory template dbNamePrefix initFunc w :
  other ≠ hash → TemplateHash template = hash →
  let after p' := pools p' !! other = pools p !! other
                  ∧ maxPoolSize p' = maxPoolSize p in
  after (GetDB order p hash).2 ∧
  after (AddTestDatabase memory p template dbNamePrefix initFunc).2 ∧
  after (ReturnTestDatabase p hash id).2 ∧
  after (RemoveAllWithHash removeFunc p hash w).1.2.
Proof.
  intros Hne <- after. subst after. cbv beta.
  set (hash := TemplateHash template) in *.
  assert (∀ pool, pools (store p hash pool) !! other = pools p !! other) as Hstore.
  { intros pool. simpl. by rewrite lookup_insert_ne. }
  split; [|split; [|split]].
  - destruct (GetDB_shape order p hash)
      as [->|(pool & i & _ & [[_ ->]|[_ ->]])]; by rewrite ?Hstore.
  - destruct (AddTestDatabase_shape memory p template dbNamePrefix initFunc)
      as [->|[->|[_ ->]]]; by rewrite ?Hstore.
  - destruct (ReturnTestDatabase_shape p hash id) as [->|(pool & _ & ->)];
      by rewrite ?Hstore.
  - unfold RemoveAllWithHash. destruct (pools p !! hash) as [pool|]; [|done].
    destruct (removeAllFromPool removeFunc pool w) as [[r pool'] w'].
    simpl. by rewrite lookup_insert_ne.
Qed.

Lemma other_hashes_untouched_witness :
  pools (GetDB [] sample.two_hashes "xyz").2 !! "abc"
    = pools sample.two_hashes !! "abc" ∧
  pools (RemoveAllWithHash sample.remove_ok sample.two_hashes "xyz" tt).1.2 !! "abc"
    = pools sample.two_hashes !! "abc".
Proof.
  destruct (other_hashes_untouched sample.remove_ok sample.two_hashes "xyz" "abc"
              [] 0 true (mkDatabase "xyz" (Config sample.template)) ""
              sample.init_ok tt)
    as ([Hget _] & _ & _ & [Hremove _]); [done..|].
  by split.
Defined.

(** ** Handing out and taking back *)

Lemma GetDB_index_None p pool index isDirty d x :
  GetDB_index p pool index isDirty = (d, x, None) →
  x = isDirty ∧ 0 ≤ index < maxPoolSize p ∧
  index < Z.of_nat (length (dbs pool)) ∧ dbs pool !! Z.to_nat index = Some d.
Proof.
  unfold GetDB_index.
  destruct (bool_decide (index < 0) || bool_decide (index >= maxPoolSize p)) eqn:Hb;
    [done|].
  apply orb_false_iff in Hb as [H1%bool_decide_eq_false H2%bool_decide_eq_false].
  case_bool_decide as Hlen; [done|].
  destruct (dbs pool !! Z.to_nat index) as [d'|] eqn:Hd; [|done].
  intros [= <- <-]. split_and!; [done|lia..|done].
Qed.

(** A [GetDB] without error took an id of a slot from [ready], or from
    [dirty] with [ready] empty, and returns that slot. *)
Lemma GetDB_success order p hash d isDirty p' :
  GetDB order p hash = (d, isDirty, None, p') →
  ∃ pool id,
    pools p !! hash = Some pool ∧ 0 ≤ id < maxPoolSize p ∧
    id < Z.of_nat (length (dbs pool)) ∧ dbs pool !! Z.to_nat id = Some d ∧
    ((isDirty = false ∧ in_map (ready pool) id ∧
      p' = store p hash (mkHashPool (dbs pool) (delete id (ready pool)) (dirty pool)))
     ∨ (isDirty = true ∧ size (ready pool) = 0%nat ∧ in_map (dirty pool) id ∧
        p' = store p hash
               (mkHashPool (dbs pool) (ready pool) (delete id (dirty pool))))).
Proof.
  intros Hget. destruct (pools p !! hash) as [pool|] eqn:Hp;
    [|by rewrite (GetDB_unknown _ _ _ Hp) in Hget].
  destruct (decide (0 < size (ready pool))%nat) as [Hready|Hready].
  - destruct (GetDB_ready order p hash pool Hp Hready) as (id & Hid & Heq).
    simpl in Heq. rewrite Heq in Hget. injection Hget as Hidx <-.
    apply GetDB_index_None in Hidx as (<- & Hmax & Hlen & Hd). simpl in Hlen, Hd.
    exists pool, id. split_and!; try done; try lia. left. by split_and!.
  - destruct (decide (size (dirty pool) = 0%nat)) as [Hdirty|Hdirty].
    { rewrite (GetDB_none order p hash pool) in Hget by (done || lia). done. }
    destruct (GetDB_dirty order p hash pool Hp) as (id & Hid & Heq); [lia..|].
    simpl in Heq. rewrite Heq in Hget. injection Hget as Hidx <-.
    apply GetDB_index_None in Hidx as (<- & Hmax & Hlen & Hd). simpl in Hlen, Hd.
    exists pool, id. split_and!; try done; try lia.
    right. split_and!; [done|lia|done..].
Qed.

(** With [ready] and [dirty] disjoint, the slot a [GetDB] hands out is
    in neither index set afterwards. *)
Lemma GetDB_taken maxSize order p hash d isDirty p' :
  reachable any_id maxSize p → sets_disjoint p hash →
  GetDB order p hash = (d, isDirty, None, p') →
  taken p' hash (ID d) ∧ 0 ≤ ID d < maxPoolSize p'.
Proof.
  intros Hreach Hdisjoint Hget.
  apply reachable_ok in Hreach as [Hok _].
  apply GetDB_success in Hget as (pool & id & Hp & Hmax & Hlen & Hd & Hcases).
  destruct (Hok hash pool Hp) as [_ _ _ Hids _ _].
  pose proof (Hdisjoint pool id Hp) as Hdisj.
  rewrite (Hids _ _ Hd), Z2Nat.id by lia.
  assert (∀ m : dbIDMap, ¬ in_map m id → m !! id = None) as Hnone.
  { intros m Hm. by apply eq_None_not_Some. }
  destruct Hcases as [(_ & Hid & ->)|(_ & _ & Hid & ->)].
  - split; [|done]. eexists. split; [apply lookup_store|]. simpl.
    split_and!; [lia..|apply lookup_delete_eq|].
    apply Hnone. intros Hdirty. by apply Hdisj.
  - split; [|done]. eexists. split; [apply lookup_store|]. simpl.
    split_and!; [lia..| |apply lookup_delete_eq].
    apply Hnone. intros Hready. by apply Hdisj.
Qed.

(** The index sets are disjoint in the runs in which every
    [ReturnTestDatabase] names an allocated slot that is not in [ready]. *)
Lemma handed_out_disjoint maxSize p hash :
  reachable handed_out maxSize p → sets_disjoint p hash.
Proof.
  intros Hreach pool id Hp.
  destruct (reachable_strict _ _ Hreach hash pool Hp) as [_ Hdisj].
  apply Hdisj.
Qed.

Lemma lookup_delete_None_keep (m : dbIDMap) i id :
  m !! id = None → delete i m !! id = None.
Proof. intros Hm. rewrite lookup_delete. by case_decide. Qed.

Lemma keep_step_taken hash id p p' :
  keep_step hash id p p' → taken p hash id → taken p' hash id.
Proof.
  intros Hstep (pool & Hp & [Hlo Hhi] & Hready & Hdirty).
  assert (∀ h x, h ≠ hash → taken (store p h x) hash id) as Hother.
  { intros h x Hne. exists pool. split_and!; [|done..].
    simpl. by rewrite lookup_insert_ne. }
  assert (taken p hash id) as Hsame by by exists pool.
  destruct Hstep as [order p h|memory p template dbNamePrefix initFunc _|p h i Hne].
  - destruct (GetDB_shape order p h)
      as [->|(x & i & Hx & [[_ ->]|[_ ->]])]; [done|..];
      (destruct (decide (h = hash)) as [->|Hne]; [|by apply Hother]);
      rewrite Hp in Hx; injection Hx as <-;
      (eexists; split; [apply lookup_store|]); simpl;
      split_and!; try done; by apply lookup_delete_None_keep.
  - destruct (AddTestDatabase_shape memory p template dbNamePrefix initFunc)
      as [->|[->|[_ ->]]]; [done|..];
      (destruct (decide (TemplateHash template = hash)) as [Heq|Hne];
       [|by apply Hother]);
      rewrite Heq, (pool_of_Some _ _ _ Hp);
      (eexists; split; [apply lookup_store|]); simpl.
    + done.
    + rewrite length_app. simpl. split_and!; [lia..| |done].
      rewrite lookup_insert_ne; [done|lia].
  - destruct (ReturnTestDatabase_shape p h i) as [->|(x & Hx & ->)]; [done|].
    destruct (decide (h = hash)) as [->|Hneh]; [|by apply Hother].
    rewrite Hp in Hx. injection Hx as <-.
    eexists. split; [apply lookup_store|]. simpl. split_and!; [done..|].
    rewrite lookup_insert_ne; [done|]. intros ->. by apply Hne.
Qed.

Lemma keep_step_step hash id p p' : keep_step hash id p p' → step any_id p p'.
Proof. intros Hstep. destruct Hstep; by constructor. Qed.

Lemma taken_not_handed_out maxSize order p hash id d isDirty p' :
  reachable any_id maxSize p → taken p hash id →
  GetDB order p hash = (d, isDirty, None, p') → ID d ≠ id.
Proof.
  intros [Hok _]%reachable_ok (pool & Hp & _ & Hready & Hdirty) Hget.
  apply GetDB_success in Hget as (x & i & Hx & Hmax & Hlen & Hd & Hcases).
  rewrite Hp in Hx. injection Hx as <-.
  destruct (Hok hash pool Hp) as [_ _ _ Hids _ _].
  rewrite (Hids _ _ Hd), Z2Nat.id by lia. intros ->.
  destruct Hcases as [(_ & [b Hb] & _)|(_ & _ & [b Hb] & _)]; congruence.
Qed.

(** X3.  No slot is handed out twice.  When no id of the hash pool is in
    [ready] and in [dirty] at once, and [GetDB] hands out a slot, then no
    later [GetDB] for the hash hands out the slot with that id, as long as
    the calls in between are [GetDB], [AddTestDatabase] and
    [ReturnTestDatabase] for other slots. *)
Theorem no_double_handout maxSize p hash order d isDirty p1 p2 order' d' isDirty' p3 :
  reachable any_id maxSize p → sets_disjoint p hash →
  GetDB order p hash = (d, isDirty, None, p1) →
  rtc (keep_step hash (ID d)) p1 p2 →
  GetDB order' p2 hash = (d', isDirty', None, p3) →
  ID d' ≠ ID d.
Proof.
  intros Hreach Hdisjoint Hget Hkeep Hget'.
  destruct (GetDB_taken _ _ _ _ _ _ _ Hreach Hdisjoint Hget) as [Htaken _].
  assert (reachable any_id maxSize p1) as Hreach1.
  { eapply reachable_step; [done|].
    pose proof (step_GetDB any_id order p hash) as Hstep.
    by rewrite Hget in Hstep. }
  assert (reachable any_id maxSize p2 ∧ taken p2 hash (ID d)) as [Hreach2 Htaken2].
  { clear Hget Hget' Hreach Hdisjoint. revert Htaken Hreach1.
    induction Hkeep as [p1|p1 p1' p2 Hstep _ IH]; intros Htaken Hreach1; [done|].
    apply IH.
    - by eapply keep_step_taken.
    - eapply reachable_step; [done|]. by eapply keep_step_step. }
  by eapply taken_not_handed_out.
Qed.

Lemma no_double_handout_witness :
  let first := GetDB [] sample.three_ready "abc" in
  let second := GetDB [] first.2 "abc" in
  first.1.2 = None ∧ second.1.2 = None ∧ ID second.1.1.1 ≠ ID first.1.1.1.
Proof.
  intros first second. split; [reflexivity|]. split; [reflexivity|].
  apply (no_double_handout 5 sample.three_ready "abc"
           [] first.1.1.1 false first.2 first.2 [] second.1.1.1 false second.2).
  - apply three_ready_reachable.
  - apply (handed_out_disjoint 5), three_ready_reachable.
  - by vm_compute.
  - apply rtc_refl.
  - by vm_compute.
Defined.

(** X4.  What [GetDB] hands out can be given back.  When no id of the hash
    pool is in [ready] and in [dirty] at once, the id of the slot a [GetDB]
    returns is inside the size limit, the slot is allocated and afterwards
    in neither index set, and [ReturnTestDatabase] for that id succeeds and
    puts it into [dirty]. *)
Theorem handed_out_can_return maxSize p hash order d isDirty p1 :
  reachable any_id maxSize p → sets_disjoint p hash →
  GetDB order p hash = (d, isDirty, None, p1) →
  taken p1 hash (ID d) ∧ 0 ≤ ID d < maxPoolSize p1 ∧
  ∃ pool1, pools p1 !! hash = Some pool1 ∧
    ReturnTestDatabase p1 hash (ID d)
      = (None, store p1 hash (mkHashPool (dbs pool1) (ready pool1)
                                         (<[ID d := true]> (dirty pool1)))).
Proof.
  intros Hreach Hdisjoint Hget.
  destruct (GetDB_taken _ _ _ _ _ _ _ Hreach Hdisjoint Hget) as [Htaken Hmax].
  split; [done|]. split; [done|].
  destruct Htaken as (pool1 & Hp1 & Hlen & Hready & Hdirty).
  exists pool1. split; [done|].
  rewrite (ReturnTestDatabase_in_range p1 hash (ID d) pool1 Hmax Hp1).
  rewrite bool_decide_eq_false_2; [done|]. by rewrite Hdirty.
Qed.

Lemma handed_out_can_return_witness :
  ∃ d p1 p2,
    GetDB [] sample.one_ready "abc" = (d, false, None, p1) ∧
    ReturnTestDatabase p1 "abc" (ID d) = (None, p2) ∧ p2 = sample.one_dirty.
Proof.
  destruct (handed_out_can_return 2 sample.one_ready "abc" [] _ _ _
              (one_ready_reachable any_id)
              (handed_out_disjoint 2 _ _ (one_ready_reachable handed_out)) eq_refl)
    as (_ & _ & pool1 & Hp1 & Hreturn).
  eexists _, _, _. split; [reflexivity|]. split; [exact Hreturn|].
  vm_compute in Hp1. injection Hp1 as <-. reflexivity.
Defined.

Lemma hashpool_eta pool : mkHashPool (dbs pool) (ready pool) (dirty pool) = pool.
Proof. by destruct pool. Qed.

(** X5.  Returning a slot and taking it again is a round trip.  When
    [ready] is empty and the id of an allocated slot is not in [dirty],
    [ReturnTestDatabase] for it succeeds, and a [GetDB] whose iteration
    meets that id first returns the same slot, marked dirty, and leaves the
    pool exactly as it was before the return.  When [dirty] was empty, every
    [GetDB] does so. *)
Theorem return_then_GetDB p hash id pool d :
  pools p !! hash = Some pool → 0 ≤ id < maxPoolSize p →
  dbs pool !! Z.to_nat id = Some d →
  size (ready pool) = 0%nat → dirty pool !! id = None →
  ∃ p1, ReturnTestDatabase p hash id = (None, p1) ∧
        GetDB [id] p1 hash = (d, true, None, p) ∧
        (dirty pool = ∅ → ∀ order, GetDB order p1 hash = (d, true, None, p)).
Proof.
  intros Hp Hid Hd Hready Hdirty.
  set (pool1 := mkHashPool (dbs pool) (ready pool) (<[id := true]> (dirty pool))).
  exists (store p hash pool1).
  assert (∀ order key,
            popFirstKey order (dirty pool1) = (key, delete key (dirty pool1)) →
            key = id →
            GetDB order (store p hash pool1) hash = (d, true, None, p)) as Hget.
  { intros order key Hpop ->. unfold GetDB. rewrite lookup_store.
    rewrite bool_decide_eq_false_2 by (simpl; lia).
    rewrite bool_decide_eq_false_2.
    2:{ simpl. rewrite map_size_insert_None by done. lia. }
    rewrite Hpop. simpl. rewrite delete_insert_eq, delete_id by done.
    rewrite store_store, hashpool_eta, (store_pool_of _ _ _ Hp).
    destruct (GetDB_index_valid (store p hash pool1) pool id true)
      as (d' & Hd' & Hidx); [done| |].
    { apply lookup_lt_Some in Hd. lia. }
    rewrite Hd in Hd'. injection Hd' as <-.
    unfold GetDB_index in *. simpl in *. by rewrite Hidx. }
  split_and!.
  - rewrite (ReturnTestDatabase_in_range p hash id pool Hid Hp).
    rewrite bool_decide_eq_false_2; [done|]. by rewrite Hdirty.
  - apply (Hget [id] id); [|done]. apply popFirstKey_any.
    unfold in_map, pool1. simpl. rewrite lookup_insert_eq. by eexists.
  - intros Hempty order.
    destruct (popFirstKey_nonempty order (dirty pool1)) as (key & [b Hkey] & Hpop).
    { simpl. rewrite map_size_insert_None by done. lia. }
    apply (Hget order key Hpop). simpl in Hkey. rewrite Hempty in Hkey.
    apply lookup_insert_Some in Hkey as [[<- _]|[_ Hkey]]; [done|].
    by rewrite lookup_empty in Hkey.
Qed.

Lemma return_then_GetDB_witness :
  ∃ d, (GetDB [] sample.one_ready "abc").1.1.1 = d ∧
       ReturnTestDatabase sample.one_in_use "abc" 0 = (None, sample.one_dirty) ∧
       ∀ order, GetDB order sample.one_dirty "abc" = (d, true, None, sample.one_in_use).
Proof.
  destruct (return_then_GetDB sample.one_in_use "abc" 0 _
              (GetDB [] sample.one_ready "abc").1.1.1 eq_refl)
    as (p1 & Hreturn & _ & Hall); [by vm_compute..|].
  eexists. split; [reflexivity|].
  assert (p1 = sample.one_dirty) as -> by (unfold sample.one_dirty; by rewrite Hreturn).
  split; [done|]. by apply Hall.
Defined.

(** ** Draining, once more *)

Section drain_errors.
Context {W : Type} (removeFunc : TestDatabase → W → option error * W).

Lemma RemoveAll_range_exit hashes p w :
  let r := RemoveAll_range removeFunc hashes p w in
  r.1.1 = Return None ∨
  ∃ e hash pool d w0,
    r.1.1 = Return (Some e) ∧ pools p !! hash = Some pool ∧ hash ∈ hashes ∧
    d ∈ dbs pool ∧ removeFunc d w0 = (Some e, r.2).
Proof.
  revert p w. induction hashes as [|h rest IH]; intros p w; simpl; [by left|].
  destruct (pools p !! h) as [pool|] eqn:Hp.
  - destruct (removeAllFromPool_spec removeFunc pool w)
      as (k & r & pool' & w' & -> & _ & [[-> ->]|(e & k0 & d & w0 & -> & _ & Hd & Hcall)]).
    + destruct (IH (mkDBPool (delete h (pools p)) (maxPoolSize p)) w')
        as [Hnil|(e & hash & x & d & w0 & He & Hx & Hin & Hd & Hcall)]; [by left|].
      right. exists e, hash, x, d, w0. split_and!; try done; [|by right].
      simpl in Hx. by apply lookup_delete_Some in Hx as [_ Hx].
    + right. exists e, h, pool, d, w0. simpl.
      split_and!; try done; [by left|]. by eapply list_elem_of_lookup_2.
  - destruct (IH p w) as [Hnil|(e & hash & x & d & w0 & He & Hx & Hin & Hd & Hcall)];
      [by left|].
    right. exists e, hash, x, d, w0. split_and!; try done. by right.
Qed.

(** X6.  The drains make no error of their own and never panic, whatever
    state the pool is in.  [RemoveAllWithHash] and [RemoveAll] return [nil],
    or the error that [removeFunc] returned for a slot of the pool,
    unchanged; the one exception is [ErrUnknownHash] from
    [RemoveAllWithHash] for a hash without hash pool, in which case
    [removeFunc] is not called and nothing changes. *)
Theorem drains_pass_errors_on p hash order w :
  (pools p !! hash = None →
   RemoveAllWithHash removeFunc p hash w = (Return (Some ErrUnknownHash), p, w)) ∧
  (∀ pool, pools p !! hash = Some pool →
     let r := RemoveAllWithHash removeFunc p hash w in
     r.1.1 = Return None ∨
     ∃ e d w0, r.1.1 = Return (Some e) ∧ d ∈ dbs pool ∧
               removeFunc d w0 = (Some e, r.2)) ∧
  (let r := RemoveAll removeFunc order p w in
   r.1.1 = Return None ∨
   ∃ e h pool d w0, r.1.1 = Return (Some e) ∧ pools p !! h = Some pool ∧
                    d ∈ dbs pool ∧ removeFunc d w0 = (Some e, r.2)).
Proof.
  split_and!.
  - intros Hp. unfold RemoveAllWithHash. by rewrite Hp.
  - intros pool Hp. unfold RemoveAllWithHash. rewrite Hp.
    destruct (removeAllFromPool_spec removeFunc pool w)
      as (k & r & pool' & w' & -> & _ & [[-> ->]|(e & k0 & d & w0 & -> & _ & Hd & Hcall)]);
      simpl; [by left|].
    right. exists e, d, w0. split_and!; [done| |done].
    by eapply list_elem_of_lookup_2.
  - unfold RemoveAll.
    destruct (RemoveAll_range_exit (range_keys order (pools p)) p w)
      as [Hnil|(e & h & pool & d & w0 & He & Hp & _ & Hd & Hcall)]; [by left|].
    right. by exists e, h, pool, d, w0.
Qed.

(** X7.  A [RemoveAll] that succeeds leaves the pool as [NewDBPool] made
    it: no hash has a hash pool any more, so that every [GetDB] answers
    [ErrUnknownHash]. *)
Theorem RemoveAll_resets order p w p' w' :
  RemoveAll removeFunc order p w = (Return None, p', w') →
  p' = NewDBPool (maxPoolSize p) ∧
  ∀ order' hash, GetDB order' p' hash
                 = (zeroTestDatabase, false, Some ErrUnknownHash, p').
Proof.
  intros Hrun. unfold RemoveAll in Hrun.
  destruct (RemoveAll_range_calls removeFunc (range_keys order (pools p)) p [] w)
    as (r & q & v & Hrun' & Hmax & Hcases).
  { apply NoDup_range_keys. }
  { intros h. apply elem_of_range_keys. }
  rewrite Hrun in Hrun'. injection Hrun' as <- <- <-.
  destruct Hcases as [(_ & Hpools & _)|(e & ? & ? & ? & ? & ? & ? & ? & [=] & _)].
  assert (p' = NewDBPool (maxPoolSize p)) as ->.
  { destruct p' as [m maxSize]. simpl in *. subst maxSize. unfold NewDBPool.
    f_equal. rewrite Hpools. apply foldr_delete_all.
    intros h. apply elem_of_range_keys. }
  split; [done|]. intros order' hash. by apply GetDB_unknown.
Qed.
End drain_errors.

Lemma drains_pass_errors_on_witness :
  RemoveAllWithHash sample.remove_but_1 sample.three_ready "zzz" tt
    = (Return (Some ErrUnknownHash), sample.three_ready, tt) ∧
  (RemoveAllWithHash sample.remove_but_1 sample.three_ready "abc" tt).1.1
    = Return (Some (ErrForeign "database in use")).
Proof.
  destruct (drains_pass_errors_on sample.remove_but_1 sample.three_ready "zzz" [] tt)
    as (Hunknown & _ & _).
  destruct (drains_pass_errors_on sample.remove_but_1 sample.three_ready "abc" [] tt)
    as (_ & Hknown & _).
  split; [by apply Hunknown|].
  destruct (Hknown _ eq_refl) as [Hnil|(e & d & w0 & He & _ & _)];
    [by vm_compute in Hnil|].
  rewrite He. vm_compute in He. by injection He as <-.
Defined.

Lemma RemoveAll_resets_witness :
  (RemoveAll sample.remove_ok ["xyz"] sample.two_hashes tt).1.2 = NewDBPool 5.
Proof.
  destruct (RemoveAll_resets sample.remove_ok ["xyz"] sample.two_hashes tt
              (RemoveAll sample.remove_ok ["xyz"] sample.two_hashes tt).1.2 tt)
    as [Hreset _]; [by vm_compute|].
  exact Hreset.
Defined.

(** ** Names and ids of new slots *)

Lemma fmt_03d_inj i j : 0 ≤ i → 0 ≤ j → fmt.fmt_03d i = fmt.fmt_03d j → i = j.
Proof.
  intros Hi Hj Heq.
  destruct (fmt_03d_value i Hi) as [Hvi _].
  destruct (fmt_03d_value j Hj) as [Hvj _].
  rewrite Heq, Hvj in Hvi. lia.
Qed.

(** X8.  No two living slots of a hash share a database name made from
    the same prefix.  After [AddTestDatabase] has made a slot, and for as
    long as that slot is not removed, every further slot made for the hash
    gets a greater id, and with the same prefix a different name. *)
Theorem names_are_unique may_return memory p template dbNamePrefix initFunc d p1 p2
    memory' template' initFunc' d' p3 :
  AddTestDatabase memory p template dbNamePrefix initFunc = (d, Return None, p1) →
  slot_lives may_return (TemplateHash template) (Z.to_nat (ID d)) p1 p2 →
  TemplateHash template' = TemplateHash template →
  AddTestDatabase memory' p2 template' dbNamePrefix initFunc'
    = (d', Return None, p3) →
  ID d < ID d' ∧ name_of d' ≠ name_of d.
Proof.
  intros Hadd Hlives Hhash Hadd'.
  apply AddTestDatabase_success in Hadd as (Hd & _ & ->).
  apply AddTestDatabase_success in Hadd' as (Hd' & _ & _).
  rewrite Hhash in Hd'.
  set (hash := TemplateHash template) in *.
  assert (slot_at p2 hash (Z.to_nat (ID d)) = Some d) as Hslot.
  { eapply slot_lives_same; [done|]. apply slot_at_Some.
    eexists. split; [apply lookup_store|]. simpl.
    rewrite Hd at 1. simpl. rewrite Nat2Z.id. by apply list_lookup_middle. }
  apply slot_at_Some in Hslot as (pool2 & Hp2 & Hlookup).
  rewrite (pool_of_Some _ _ _ Hp2) in Hd'.
  apply lookup_lt_Some in Hlookup.
  assert (0 ≤ ID d) as Hnonneg by (rewrite Hd; simpl; lia).
  assert (ID d < ID d') as Hlt by (rewrite Hd'; simpl; lia).
  split; [done|]. intros Hname.
  rewrite Hd, Hd' in Hname. unfold name_of, newTestDB in Hname. simpl in Hname.
  unfold fmt.Sprintf_s_03d in Hname. apply (inj _) in Hname.
  apply fmt_03d_inj in Hname; [|lia..].
  rewrite Hd, Hd' in Hlt. simpl in Hlt. lia.
Qed.

Lemma names_are_unique_witness :
  let first := AddTestDatabase true (NewDBPool 2) sample.template "test_abc_"
                 sample.init_ok in
  let second := AddTestDatabase true (GetDB [] first.2 "abc").2 sample.template
                  "test_abc_" sample.init_ok in
  name_of first.1.1 = "test_abc_000" ∧ name_of second.1.1 = "test_abc_001".
Proof.
  intros first second. split; [reflexivity|].
  destruct (names_are_unique any_id true (NewDBPool 2) sample.template "test_abc_"
              sample.init_ok first.1.1 first.2 (GetDB [] first.2 "abc").2
              true sample.template sample.init_ok second.1.1 second.2)
    as [_ Hname];
    [vm_compute; reflexivity| |done|vm_compute; reflexivity|reflexivity].
  eapply rtc_l; [|apply rtc_refl]. split; [apply step_GetDB|].
  eexists. vm_compute. reflexivity.
Defined.

(** ** What [GetDB] uses up *)

Lemma GetDB_index_error p pool index isDirty :
  (GetDB_index p pool index isDirty).2 ≠ Some ErrNoDBReady.
Proof. unfold GetDB_index. repeat (case_match; simpl; try done). Qed.

Lemma GetDB_consumes order p hash pool :
  pools p !! hash = Some pool →
  let r := GetDB order p hash in
  (r = (zeroTestDatabase, false, Some ErrNoDBReady, p) ∧
   size (ready pool) = 0%nat ∧ size (dirty pool) = 0%nat) ∨
  (∃ pool', pools r.2 !! hash = Some pool' ∧ dbs pool' = dbs pool ∧
            (size (ready pool') + size (dirty pool') + 1
             = size (ready pool) + size (dirty pool))%nat ∧
            r.1.2 ≠ Some ErrNoDBReady).
Proof.
  intros Hp r. subst r.
  assert (∀ (m : dbIDMap) id, in_map m id → (size (delete id m) + 1 = size m)%nat)
    as Hsize.
  { intros m id Hid. rewrite map_size_delete.
    pose proof (size_pos_in_map m id Hid). destruct Hid as [b ->]. simpl. lia. }
  destruct (decide (0 < size (ready pool))%nat) as [Hready|Hready].
  - right. destruct (GetDB_ready order p hash pool Hp Hready) as (id & Hid & ->).
    eexists. split; [apply lookup_store|]. simpl.
    split_and!; [done| |apply GetDB_index_error].
    specialize (Hsize _ _ Hid). lia.
  - destruct (decide (size (dirty pool) = 0%nat)) as [Hdirty|Hdirty].
    + left. split_and!; [|lia|done]. apply (GetDB_none order p hash pool); [done|lia|done].
    + right. destruct (GetDB_dirty order p hash pool Hp) as (id & Hid & ->); [lia..|].
      eexists. split; [apply lookup_store|]. simpl.
      split_and!; [done| |apply GetDB_index_error].
      specialize (Hsize _ _ Hid). lia.
Qed.

(** X9.  Every [GetDB] that does not answer [ErrNoDBReady] uses up exactly
    one id of the hash pool, from [ready] or from [dirty], and leaves the
    slots as they are; this holds when it returns a slot and when it answers
    [ErrInvalidIndex].  So a hash pool with [n] ids in [ready] and [dirty]
    together answers [ErrNoDBReady] after [n] calls of [GetDB], in whatever
    order the ids are met. *)
Theorem GetDB_uses_up order p hash pool :
  pools p !! hash = Some pool →
  (let r := GetDB order p hash in
   (r = (zeroTestDatabase, false, Some ErrNoDBReady, p) ∧
    size (ready pool) = 0%nat ∧ size (dirty pool) = 0%nat) ∨
   (∃ pool', pools r.2 !! hash = Some pool' ∧ dbs pool' = dbs pool ∧
             (size (ready pool') + size (dirty pool') + 1
              = size (ready pool) + size (dirty pool))%nat ∧
             r.1.2 ≠ Some ErrNoDBReady)) ∧
  (∀ orders,
     length orders = (size (ready pool) + size (dirty pool))%nat →
     let p' := foldl (λ q o, (GetDB o q hash).2) p orders in
     GetDB order p' hash = (zeroTestDatabase, false, Some ErrNoDBReady, p')).
Proof.
  intros Hp. split; [by apply GetDB_consumes|].
  intros orders. revert p pool Hp.
  induction orders as [|o orders IH]; intros p pool Hp Hlen; simpl in *.
  - apply (GetDB_none order p hash pool); [done|lia..].
  - destruct (GetDB_consumes o p hash pool Hp)
      as [(_ & Hr & Hd)|(pool' & Hp' & _ & Hsize & _)]; [lia|].
    apply (IH _ pool' Hp'). lia.
Qed.

Lemma GetDB_uses_up_witness :
  let p' := foldl (λ q o, (GetDB o q "abc").2) sample.three_ready [[2]; []; [1]] in
  GetDB [] p' "abc" = (zeroTestDatabase, false, Some ErrNoDBReady, p').
Proof.
  destruct (GetDB_uses_up [] sample.three_ready "abc" _ eq_refl) as [_ Hall].
  apply (Hall [[2]; []; [1]]). by vm_compute.
Defined.

(** ** The bounds checks of [GetDB] *)

(** X10.  The first bounds check of [GetDB] never fires in a run: when
    [GetDB] answers [ErrInvalidIndex], the id it took was inside the size
    limit and came from [dirty], with [ready] empty; it is the id of no
    slot, and it is gone from [dirty] afterwards. *)
Theorem GetDB_invalid_index maxSize order p hash d isDirty p' :
  reachable any_id maxSize p →
  GetDB order p hash = (d, isDirty, Some ErrInvalidIndex, p') →
  d = zeroTestDatabase ∧ isDirty = true ∧
  ∃ pool id, pools p !! hash = Some pool ∧ size (ready pool) = 0%nat ∧
             in_map (dirty pool) id ∧
             Z.of_nat (length (dbs pool)) ≤ id < maxPoolSize p ∧
             p' = store p hash
                    (mkHashPool (dbs pool) (ready pool) (delete id (dirty pool))).
Proof.
  intros Hreach Hget.
  destruct (pools p !! hash) as [pool|] eqn:Hp;
    [|by rewrite (GetDB_unknown _ _ _ Hp) in Hget].
  destruct (decide (0 < size (ready pool))%nat) as [Hready|Hready].
  { destruct (GetDB_ready_slot any_id maxSize order p hash pool Hreach Hp Hready)
      as (id & x & _ & _ & Heq). by rewrite Heq in Hget. }
  destruct (decide (size (dirty pool) = 0%nat)) as [Hdirty|Hdirty].
  { rewrite (GetDB_none order p hash pool) in Hget by (done || lia). done. }
  destruct (GetDB_dirty order p hash pool Hp) as (id & Hid & Heq); [lia..|].
  simpl in Heq. rewrite Heq in Hget. injection Hget as Hidx <-.
  pose proof Hreach as [Hok Hmax]%reachable_ok.
  destruct (Hok hash pool Hp) as [_ Hbelow _ _ _ _]. specialize (Hbelow id Hid).
  assert (Z.of_nat (length (dbs pool)) ≤ id) as Hout.
  { destruct (decide (id < Z.of_nat (length (dbs pool)))) as [Hlt|]; [|lia].
    destruct (GetDB_index_valid p
                (mkHashPool (dbs pool) (ready pool) (delete id (dirty pool)))
                id true) as (x & _ & Hvalid); [lia|done|].
    by rewrite Hvalid in Hidx. }
  rewrite GetDB_index_invalid in Hidx by done. injection Hidx as <- <-.
  split; [done|]. split; [done|].
  exists pool, id. split_and!; [done|lia|done|done|lia|done].
Qed.

Lemma GetDB_invalid_index_witness :
  let p := (ReturnTestDatabase sample.one_in_use "abc" 1).2 in
  (GetDB [] p "abc").1 = (zeroTestDatabase, true, Some ErrInvalidIndex) ∧
  (GetDB [] p "abc").2 = sample.one_in_use.
Proof.
  intros p.
  destruct (GetDB_invalid_index 2 [] p "abc" zeroTestDatabase true
              (GetDB [] p "abc").2) as (_ & _ & pool & id & Hp & _ & _ & _ & Hp').
  - eapply reachable_step; [apply (one_in_use_reachable any_id)|].
    by apply step_ReturnTestDatabase.
  - by vm_compute.
  - split; [reflexivity|]. rewrite Hp'. by vm_compute.
Defined.

(** ** A new slot is ready at once *)

(** X11.  After [AddTestDatabase] has made a slot, the next [GetDB] for
    the hash returns a slot without error and not dirty; it returns the new
    slot when the iteration meets the new id first. *)
Theorem added_slot_is_ready maxSize memory p template dbNamePrefix initFunc d p1 :
  reachable any_id maxSize p →
  AddTestDatabase memory p template dbNamePrefix initFunc = (d, Return None, p1) →
  (∀ order, ∃ d' p2, GetDB order p1 (TemplateHash template) = (d', false, None, p2)) ∧
  (∃ p2, GetDB [ID d] p1 (TemplateHash template) = (d, false, None, p2)).
Proof.
  intros Hreach Hadd.
  assert (reachable any_id maxSize p1) as Hreach1.
  { eapply reachable_step; [done|].
    pose proof (step_AddTestDatabase any_id memory p template dbNamePrefix
                  initFunc) as Hs.
    rewrite Hadd in Hs. by apply Hs. }
  apply AddTestDatabase_success in Hadd as (Hd & Hmax & ->).
  set (hash := TemplateHash template) in *.
  set (pool := pool_of p hash) in *.
  set (pool1 := mkHashPool _ _ _) in *.
  assert (in_map (ready pool1) (ID d)) as Hin.
  { unfold in_map, pool1. simpl. rewrite Hd. simpl.
    rewrite lookup_insert_eq. by eexists. }
  split.
  - intros order.
    destruct (GetDB_ready_slot any_id maxSize order _ hash pool1 Hreach1)
      as (id & d' & _ & _ & ->); [apply lookup_store|by eapply size_pos_in_map|].
    by eexists _, _.
  - eexists. unfold GetDB. rewrite lookup_store.
    rewrite bool_decide_eq_true_2 by by eapply size_pos_in_map.
    rewrite (popFirstKey_any _ _ Hin).
    destruct (GetDB_index_valid (store p hash pool1)
                (mkHashPool (dbs pool1) (delete (ID d) (ready pool1)) (dirty pool1))
                (ID d) false) as (x & Hx & ->).
    + rewrite Hd. simpl. lia.
    + rewrite Hd. simpl. rewrite length_app. simpl. lia.
    + simpl in Hx. rewrite Hd in Hx at 1. simpl in Hx.
      rewrite Nat2Z.id, list_lookup_middle in Hx by done.
      injection Hx as <-. done.
Qed.

Lemma added_slot_is_ready_witness :
  let added := AddTestDatabase true sample.one_ready sample.template "test_abc_"
                 sample.init_ok in
  ∃ p2, GetDB [1] added.2 "abc" = (added.1.1, false, None, p2).
Proof.
  intros added.
  destruct (added_slot_is_ready 2 true sample.one_ready sample.template "test_abc_"
              sample.init_ok added.1.1 added.2 (one_ready_reachable any_id))
    as [_ Hnew]; [by vm_compute|].
  exact Hnew.
Defined.

(** ** A hash becomes known by [AddTestDatabase], even when it fails *)

(** X12.  An [AddTestDatabase] for a hash without hash pool that returns an
    error, [ErrPoolFull] or the error of [initFunc], has made the empty hash
    pool all the same: from then on [GetDB] for the hash answers
    [ErrNoDBReady], no longer [ErrUnknownHash]. *)
Theorem failed_add_makes_hash_known memory p template dbNamePrefix initFunc
    d err p1 order :
  pools p !! TemplateHash template = None →
  AddTestDatabase memory p template dbNamePrefix initFunc
    = (d, Return (Some err), p1) →
  pools p1 !! TemplateHash template = Some freshHashPool ∧
  GetDB order p1 (TemplateHash template)
    = (zeroTestDatabase, false, Some ErrNoDBReady, p1).
Proof.
  intros Hp Hadd.
  assert (finds_or_makes memory p (TemplateHash template)) as Hwork.
  { apply (AddTestDatabase_returned _ _ _ dbNamePrefix initFunc). by rewrite Hadd. }
  revert Hadd. rewrite AddTestDatabase_unfold, (pool_of_None _ _ Hp) by done. simpl.
  assert (∀ q, q = store p (TemplateHash template) freshHashPool →
            pools q !! TemplateHash template = Some freshHashPool ∧
            GetDB order q (TemplateHash template)
              = (zeroTestDatabase, false, Some ErrNoDBReady, q)) as Hq.
  { intros q ->. split; [apply lookup_store|].
    by apply (GetDB_none order _ _ freshHashPool); [apply lookup_store|..]. }
  case_bool_decide.
  - intros [= _ _ <-]. by apply Hq.
  - destruct (initFunc _); [|done]. intros [= _ _ <-]. by apply Hq.
Qed.

Lemma failed_add_makes_hash_known_witness :
  let failed := AddTestDatabase true (NewDBPool 2) sample.template "test_abc_"
                  sample.init_fail in
  failed.1.2 = Return (Some (ErrForeign "create failed")) ∧
  (GetDB [] (NewDBPool 2) "abc").1.2 = Some ErrUnknownHash ∧
  (GetDB [] failed.2 "abc").1.2 = Some ErrNoDBReady.
Proof.
  intros failed. split; [reflexivity|]. split; [reflexivity|].
  destruct (failed_add_makes_hash_known true (NewDBPool 2) sample.template "test_abc_"
              sample.init_fail failed.1.1 (ErrForeign "create failed") failed.2 [])
    as [_ Hget]; [reflexivity|vm_compute; reflexivity|].
  change (TemplateHash sample.template) with "abc" in Hget. by rewrite Hget.
Defined.

(** ** After a drain of one hash *)

(** X13.  After a [RemoveAllWithHash] that succeeded, the hash pool is
    empty and ids start again at 0: a second [RemoveAllWithHash] returns
    [nil] without a single call of [removeFunc] and changes nothing, and the
    next [AddTestDatabase] for the hash, with room and an [initFunc] that
    succeeds, makes slot 0 again. *)
Theorem drained_pool_starts_over {W : Type}
    (removeFunc : TestDatabase → W → option error * W) p hash pool w p1 w1 :
  pools p !! hash = Some pool →
  RemoveAllWithHash removeFunc p hash w = (Return None, p1, w1) →
  (∀ (W2 : Type) (again : TestDatabase → W2 → option error * W2) v,
     RemoveAllWithHash (logged again) p1 hash ([], v)
       = (Return None, p1, ([], v))) ∧
  (∀ memory template dbNamePrefix initFunc,
     TemplateHash template = hash → 0 < maxPoolSize p →
     initFunc (newTestDB template dbNamePrefix 0) = None →
     ∃ p2, AddTestDatabase memory p1 template dbNamePrefix initFunc
             = (newTestDB template dbNamePrefix 0, Return None, p2) ∧
           slot_at p2 hash 0 = Some (newTestDB template dbNamePrefix 0)).
Proof.
  intros Hp Hrun. unfold RemoveAllWithHash in Hrun. rewrite Hp in Hrun.
  destruct (removeAllFromPool_spec removeFunc pool w)
    as (k & r & pool1 & w' & Heq & [_ Hdbs _ _] & Hexit).
  rewrite Heq in Hrun. injection Hrun as -> <- <-.
  destruct Hexit as [[_ ->]|(e & k0 & d & w0 & [=] & _)].
  rewrite take_0 in Hdbs. split.
  - intros W2 again v. unfold RemoveAllWithHash, removeAllFromPool.
    rewrite lookup_store, Hdbs. simpl. by rewrite store_store.
  - intros memory template dbNamePrefix initFunc <- Hroom Hinit.
    rewrite AddTestDatabase_unfold by (left; rewrite lookup_store; by eexists).
    rewrite (pool_of_Some _ _ pool1) by apply lookup_store.
    rewrite Hdbs. change (Z.of_nat (@length TestDatabase [])) with 0.
    rewrite bool_decide_eq_false_2 by (simpl; lia). rewrite Hinit.
    eexists. split; [done|]. apply slot_at_Some.
    eexists. split; [apply lookup_store|]. done.
Qed.

Lemma drained_pool_starts_over_witness :
  let emptied := RemoveAllWithHash sample.remove_ok sample.three_ready "abc" tt in
  emptied.1.1 = Return None ∧
  (RemoveAllWithHash (logged sample.remove_ok) emptied.1.2 "abc" ([], tt)).2
    = ([], tt) ∧
  ID (AddTestDatabase true emptied.1.2 sample.template "test_abc_"
        sample.init_ok).1.1 = 0.
Proof.
  intros emptied.
  destruct (drained_pool_starts_over sample.remove_ok sample.three_ready "abc" _ tt
              emptied.1.2 tt eq_refl) as [Hagain Hadd]; [vm_compute; reflexivity|].
  split; [reflexivity|]. split.
  - by rewrite Hagain.
  - destruct (Hadd true sample.template "test_abc_" sample.init_ok eq_refl)
      as (p2 & -> & _); [by vm_compute|done..].
Defined.
